(** * transforms.py: parameter sweeps and the monotonicity check

    A shallow embedding of [transforms.py] and the properties of its
    specification.

    - Python floats are read as real numbers: [2 ** x] is [Rpower 2 x],
      and ["{:010.3F}"] rounds the real value to thousandths, ties to
      even.
    - The process-wide random generator is an explicit state, threaded
      through every draw in the order of the source ([RandomGen]).
    - An exception ends the run: a computation returns [Ok] with its
      result and the new state, or [Raise] with the exception.
    - The catalog is dynamically typed in the source; an element of a
      continuous-parameter list is a tuple of values or a bare string,
      the two shapes that occur in the literal.
    - sox, soundfile, auraloss and scipy are collaborators given by their
      interface ([Collaborators]); the files below [data/transforms] are a
      store from paths to decoded frames. *)

From Stdlib Require Import Reals Lra Lia ZArith List String Ascii Bool Sorted.
From Stdlib Require Import Permutation.
Import ListNotations.

Local Open Scope string_scope.
Local Open Scope R_scope.

(** ** Python values and exceptions *)

Inductive exn : Set :=
| ValueError
| TypeError
| IndexError
| SoxError
| SoundFileError.

Inductive result (A : Type) : Type :=
| Ok (a : A)
| Raise (e : exn).

Arguments Ok {A} a.
Arguments Raise {A} e.

(** The values that occur in the catalog and in a parameter dictionary. *)
Inductive value : Type :=
| VInt (z : Z)
| VFloat (x : R)
| VStr (s : string)
| VBool (b : bool)
| VNone.

(** An element of a continuous-parameter list: a tuple, or a bare string
    (both occur in the catalog literal). *)
Inductive entry : Type :=
| ETuple (items : list value)
| EStr (s : string).

Definition Reqb (x y : R) : bool := if Req_EM_T x y then true else false.

(** Numbers in the sense of Python arithmetic ([bool] is a subtype of
    [int]). *)
Definition as_num (v : value) : option R :=
  match v with
  | VInt z => Some (IZR z)
  | VFloat x => Some x
  | VBool b => Some (if b then 1 else 0)
  | VStr _ | VNone => None
  end.

(** Python's [==] on these values. *)
Definition py_eq (a b : value) : bool :=
  match as_num a, as_num b with
  | Some x, Some y => Reqb x y
  | _, _ =>
      match a, b with
      | VStr s, VStr t => String.eqb s t
      | VNone, VNone => true
      | _, _ => false
      end
  end.

(** [e[i]] *)
Definition getitem (e : entry) (i : nat) : result value :=
  match e with
  | ETuple items =>
      match nth_error items i with
      | Some v => Ok v
      | None => Raise IndexError
      end
  | EStr s =>
      match String.get i s with
      | Some c => Ok (VStr (String c EmptyString))
      | None => Raise IndexError
      end
  end.

(** [a, b, c = e] *)
Definition unpack3 (e : entry) : result (value * value * value) :=
  match e with
  | ETuple [a; b; c] => Ok (a, b, c)
  | ETuple _ => Raise ValueError
  | EStr (String a (String b (String c EmptyString))) =>
      Ok (VStr (String a EmptyString), VStr (String b EmptyString),
          VStr (String c EmptyString))
  | EStr _ => Raise ValueError
  end.

(** ** Dictionaries, in insertion order *)

Definition dict : Type := list (value * value).

Fixpoint dict_set (k v : value) (d : dict) : dict :=
  match d with
  | [] => [(k, v)]
  | (k', v') :: d' =>
      if py_eq k' k then (k', v) :: d' else (k', v') :: dict_set k v d'
  end.

Fixpoint dict_get (k : value) (d : dict) : option value :=
  match d with
  | [] => None
  | (k', v') :: d' => if py_eq k' k then Some v' else dict_get k d'
  end.

(** ** The catalog *)

Definition N_TRANSFORMS : nat := 32.

Definition note_to_freq (note : R) : R :=
  let a := 440 in
  (a / 32) * Rpower 2 ((note - 9) / 12).

Record transform_spec : Type := Spec {
  name : string;
  continuous : list entry;
  categorical : list (string * list value)
}.

(** A well-shaped continuous entry [(n, lo, hi)]. *)
Definition tup3 (n : string) (lo hi : value) : entry :=
  ETuple [VStr n; lo; hi].

Definition transforms : list transform_spec := [
  Spec "allpass"
    [tup3 "midi" (VInt 21) (VInt 108); tup3 "width_q" (VFloat 0.1) (VInt 5)]
    [];
  Spec "bandpass"
    [tup3 "midi" (VInt 21) (VInt 108); tup3 "width_q" (VFloat 0.1) (VInt 5)]
    [("constant_skirt", [VBool true; VBool false])];
  Spec "bandreject"
    [tup3 "midi" (VInt 21) (VInt 108); tup3 "width_q" (VFloat 0.1) (VInt 5)]
    [];
  Spec "bass"
    [tup3 "gain_db" (VInt (-20)) (VInt 20); tup3 "midi" (VInt 21) (VInt 108);
     tup3 "slope" (VFloat 0.3) (VFloat 1.0)]
    [];
  Spec "chorus"
    [tup3 "gain_in" (VFloat 0.0) (VFloat 1.0);
     tup3 "gain_out" (VFloat 0.0) (VFloat 1.0)]
    [("n_voices", [VInt 2; VInt 3; VInt 4])];
  Spec "compand"
    [tup3 "attack_time" (VFloat 0.01) (VFloat 1.0);
     tup3 "decay_time" (VFloat 0.01) (VFloat 2.0);
     tup3 "soft_knee_db" (VFloat 0.0) (VFloat 12.0)]
    [];
  Spec "contrast" [tup3 "amount" (VInt 0) (VInt 100)] [];
  Spec "echo"
    [tup3 "gain_in" (VInt 0) (VInt 1); tup3 "gain_out" (VInt 0) (VInt 1)]
    [];
  Spec "equalizer"
    [tup3 "midi" (VInt 21) (VInt 108); tup3 "gain_db" (VInt (-20)) (VInt 20);
     tup3 "width_q" (VFloat 0.1) (VInt 5)]
    [];
  Spec "fade"
    [tup3 "fade_in_len" (VInt 0) (VInt 2);
     tup3 "fade_out_len" (VInt 0) (VInt 2)]
    [("fade_shape", [VStr "q"; VStr "h"; VStr "t"; VStr "l"; VStr "p"])];
  Spec "flanger"
    [tup3 "delay" (VInt 0) (VInt 30);
     tup3 "depth" (VInt 0) (VInt 10);
     tup3 "regen" (VInt (-95)) (VInt 95);
     tup3 "width" (VInt 0) (VInt 100);
     tup3 "speed" (VFloat 0.1) (VFloat 10.0);
     tup3 "phase" (VInt 0) (VInt 100)]
    [("shape", [VStr "triangle"; VStr "sine"]);
     ("interp", [VStr "linear"; VStr "quadratic"])];
  Spec "gain"
    [tup3 "gain_db" (VInt (-20)) (VInt 20)]
    [("normalize", [VBool true; VBool false]);
     ("limiter", [VBool true; VBool false]);
     ("balance", [VNone; VStr "e"; VStr "B"; VStr "b"])];
  Spec "highpass"
    [tup3 "midi" (VInt 21) (VInt 108); tup3 "width_q" (VFloat 0.1) (VInt 5)]
    [("n_poles", [VInt 1; VInt 2])];
  Spec "lowpass"
    [tup3 "midi" (VInt 21) (VInt 108); tup3 "width_q" (VFloat 0.1) (VInt 5)]
    [("n_poles", [VInt 1; VInt 2])];
  Spec "overdrive"
    [tup3 "gain_db" (VInt (-40)) (VInt 40);
     tup3 "colour" (VInt (-40)) (VInt 40)]
    [];
  Spec "phaser"
    [tup3 "gain_in" (VInt 0) (VInt 1);
     tup3 "gain_out" (VInt 0) (VInt 1);
     tup3 "delay" (VInt 0) (VInt 5);
     tup3 "decay" (VFloat 0.1) (VFloat 0.5);
     tup3 "speed" (VFloat 0.1) (VInt 2)]
    [("modulation_shape", [VStr "sinusoidal"; VStr "triangular"])];
  Spec "pitch"
    [EStr "n_semitones"; ETuple [VInt (-12); VInt 12]]
    [("quick", [VBool true; VBool false])];
  Spec "reverb"
    [tup3 "reverberance" (VInt 0) (VInt 100);
     tup3 "high_freq_damping" (VInt 0) (VInt 100);
     tup3 "room_scale" (VInt 0) (VInt 100);
     tup3 "stereo_depth" (VInt 0) (VInt 100);
     tup3 "pre_delay" (VInt 0) (VInt 1000);
     tup3 "wet_gain" (VInt (-20)) (VInt 20)]
    [("wet_only", [VBool true; VBool false])];
  Spec "speed" [tup3 "factor" (VFloat 0.5) (VFloat 1.5)] [];
  Spec "stretch"
    [tup3 "factor" (VFloat 0.5) (VFloat 1.5)]
    [("window", [VInt 10; VInt 20; VInt 50])];
  Spec "tempo"
    [tup3 "factor" (VFloat 0.5) (VFloat 1.5)]
    [("audio_type", [VStr "m"; VStr "s"; VStr "l"]);
     ("quick", [VBool true; VBool false])];
  Spec "treble"
    [tup3 "gain_db" (VInt (-20)) (VInt 20); tup3 "midi" (VInt 21) (VInt 108);
     tup3 "slope" (VFloat 0.3) (VFloat 1.0)]
    [];
  Spec "tremolo"
    [tup3 "speed" (VFloat 0.1) (VFloat 10.0); tup3 "depth" (VInt 0) (VInt 100)]
    []
].

(** ** The random generator

    [random] is [random.random()], a draw from the half-open unit interval;
    [randbelow n] is the index draw behind [random.choice]. *)

Class RandomGen : Type := {
  rng : Type;
  random : rng -> R * rng;
  randbelow : nat -> rng -> nat * rng;
  random_unit : forall g, 0 <= fst (random g) < 1;
  randbelow_lt : forall n g, (0 < n)%nat -> (fst (randbelow n g) < n)%nat
}.

(** ** A state and exception monad *)

Definition M (S A : Type) : Type := S -> result (A * S).

Definition ret {S A} (a : A) : M S A := fun s => Ok (a, s).

Definition bind {S A B} (c : M S A) (k : A -> M S B) : M S B :=
  fun s =>
    match c s with
    | Ok (a, s') => k a s'
    | Raise e => Raise e
    end.

Definition lift {S A} (r : result A) : M S A :=
  fun s =>
    match r with
    | Ok a => Ok (a, s)
    | Raise e => Raise e
    end.

Declare Scope monad_scope.
Delimit Scope monad_scope with monad.
Notation "x <- c ;; k" := (bind c (fun x => k))
  (at level 61, c at next level, right associativity) : monad_scope.
Notation "' pat <- c ;; k" := (bind c (fun x => match x with pat => k end))
  (at level 61, pat pattern, c at next level, right associativity)
  : monad_scope.

(** [list.sort()] on floats: only [<] is used, equal keys keep their order. *)
Fixpoint insert_sorted (x : R) (l : list R) : list R :=
  match l with
  | [] => [x]
  | y :: l' => if Rlt_dec y x then y :: insert_sorted x l' else x :: l
  end.

Fixpoint py_sort (l : list R) : list R :=
  match l with
  | [] => []
  | x :: l' => insert_sorted x (py_sort l')
  end.

Section Sampling.
Context {G : RandomGen}.

Local Open Scope monad_scope.

(** [random.choice(seq)] *)
Definition choice {A} (seq : list A) : M rng A :=
  fun g =>
    match seq with
    | [] => Raise IndexError
    | _ :: _ =>
        let (i, g') := randbelow (List.length seq) g in
        match nth_error seq i with
        | Some a => Ok (a, g')
        | None => Raise IndexError
        end
    end.

(** [random.uniform(low, hi)], that is [low + (hi - low) * random()] *)
Definition uniform (low hi : value) : M rng R :=
  fun g =>
    match as_num low, as_num hi with
    | Some a, Some b =>
        let (u, g') := random g in Ok (a + (b - a) * u, g')
    | _, _ => Raise TypeError
    end.

Definition choose_value (name low hi : value) : M rng (value * R) :=
  v <- uniform low hi ;;
  if py_eq name (VStr "midi") then
    ret (VStr "frequency", note_to_freq v)
  else
    ret (name, v).

(** Lines 144-148: the loop over the continuous parameters. *)
Fixpoint sample_continuous (variable : value) (l : list entry)
    (params : dict) : M rng dict :=
  match l with
  | [] => ret params
  | e :: l' =>
      '(param, low, hi) <- lift (unpack3 e) ;;
      if py_eq param variable then sample_continuous variable l' params
      else
        '(param', v) <- choose_value param low hi ;;
        sample_continuous variable l' (dict_set param' (VFloat v) params)
  end.

(** Lines 149-150: the loop over the categorical parameters. *)
Fixpoint sample_categorical (l : list (string * list value))
    (params : dict) : M rng dict :=
  match l with
  | [] => ret params
  | (param, vals) :: l' =>
      c <- choice vals ;;
      sample_categorical l' (dict_set (VStr param) c params)
  end.

(** Lines 152-155: the list comprehension, one draw per index. *)
Fixpoint draw_values (n : nat) (variable : value) (variable_spec : entry)
    : M rng (list R) :=
  match n with
  | O => ret []
  | S n' =>
      low <- lift (getitem variable_spec 1) ;;
      hi <- lift (getitem variable_spec 2) ;;
      '(_, v) <- choose_value variable low hi ;;
      vs <- draw_values n' variable variable_spec ;;
      ret (v :: vs)
  end.

Record sampled : Type := Sampled {
  variable_spec : entry;
  variable : value;
  params : dict;
  variable_values : list R
}.

(** Lines 141-156 of [transform_file], for the chosen [transform_spec]. *)
Definition sample (transform_spec : transform_spec) : M rng sampled :=
  variable_spec <- choice (continuous transform_spec) ;;
  variable <- lift (getitem variable_spec 0) ;;
  params <- sample_continuous variable (continuous transform_spec) [] ;;
  params <- sample_categorical (categorical transform_spec) params ;;
  variable_values <- draw_values N_TRANSFORMS variable variable_spec ;;
  ret (Sampled variable_spec variable params (py_sort variable_values)).

End Sampling.

(** ** Output paths *)

Fixpoint has_slash (p : string) : bool :=
  match p with
  | EmptyString => false
  | String c p' => Ascii.eqb c "/" || has_slash p'
  end.

(** [os.path.split(p)[1]]: what follows the last slash. *)
Fixpoint split_tail (p : string) : string :=
  match p with
  | EmptyString => EmptyString
  | String c p' =>
      if has_slash p' then split_tail p'
      else if Ascii.eqb c "/" then p' else p
  end.

Fixpoint ends_with_slash (p : string) : bool :=
  match p with
  | EmptyString => false
  | String c EmptyString => Ascii.eqb c "/"
  | String _ p' => ends_with_slash p'
  end.

(** [os.path.join(a, b)] *)
Definition path_join (a b : string) : string :=
  match b with
  | String "/" _ => b
  | _ =>
      match a with
      | EmptyString => b
      | _ => if ends_with_slash a then a ++ b else a ++ "/" ++ b
      end
  end.

(** *** ["{:010.3F}".format(v)] *)

Definition digit_char (d : Z) : ascii := ascii_of_N (48 + Z.to_N d).

(** The last [w] decimal digits of [n], most significant first. *)
Fixpoint fixed_digits (w : nat) (n : Z) : string :=
  match w with
  | O => EmptyString
  | S w' => fixed_digits w' (n / 10) ++ String (digit_char (n mod 10)) EmptyString
  end.

Fixpoint digits_fuel (fuel : nat) (n : Z) : string :=
  match fuel with
  | O => EmptyString
  | S fuel' =>
      if (n <? 10)%Z then String (digit_char n) EmptyString
      else digits_fuel fuel' (n / 10)
             ++ String (digit_char (n mod 10)) EmptyString
  end.

(** The decimal numeral of a natural number, without leading zeros. *)
Definition decimal (n : Z) : string :=
  digits_fuel (S (Z.to_nat (Z.log2 n))) n.

Fixpoint zeros (k : nat) : string :=
  match k with
  | O => EmptyString
  | S k' => String "0" (zeros k')
  end.

(** Rounding to the nearest integer, ties to even. *)
Definition round_half_even (x : R) : Z :=
  let n := Int_part x in
  let r := x - IZR n in
  if Rlt_dec r (1 / 2) then n
  else if Rlt_dec (1 / 2) r then (n + 1)%Z
  else if Z.even n then n else (n + 1)%Z.

(** Three decimals, sign first, then zeros up to a width of ten. *)
Definition format_010_3F (v : R) : string :=
  let sign := if Rlt_dec v 0 then "-" else EmptyString in
  let m := round_half_even (Rabs v * 1000) in
  let body := decimal (m / 1000) ++ "." ++ fixed_digits 3 (m mod 1000) in
  sign ++ zeros (10 - String.length sign - String.length body) ++ body.

(** Lines 163-168. *)
Definition outfile (transform f variable : string) (v : R) : string :=
  path_join "data/transforms"
    (transform ++ "-" ++ split_tail f ++ "-" ++ variable ++ "-"
       ++ format_010_3F v ++ ".ogg").

(** ** Collaborators: sox, soundfile, auraloss, scipy *)

Inductive coefficient : Type :=
| Coef (rho : R)
| NaN.

Class Collaborators : Type := {
  (** one frame of decoded audio *)
  frame : Type;
  (** the effect [transform] applied to [f] with the given keywords
      (lines 170-175), as [sf.read] decodes the written file *)
  sox_build : string -> list (string * value) -> string -> result (list frame);
  (** [dist(input, target).item()] *)
  dist : list frame -> list frame -> R;
  (** [scipy.stats.spearmanr(a, b)[0]] *)
  spearmanr : list R -> list nat -> coefficient
}.

(** A dictionary passed as keywords: every key must be a string. *)
Fixpoint kwargs (d : dict) : result (list (string * value)) :=
  match d with
  | [] => Ok []
  | (VStr k, v) :: d' =>
      match kwargs d' with
      | Ok kw => Ok ((k, v) :: kw)
      | Raise e => Raise e
      end
  | _ :: _ => Raise TypeError
  end.

(** Lines 181-184. *)
Definition truncate {A} (input target : list A) : list A * list A :=
  if (List.length input <? List.length target)%nat
  then (input, firstn (List.length input) target)
  else (firstn (List.length target) input, target).

Section Pipeline.
Context {G : RandomGen} {C : Collaborators}.

Local Open Scope monad_scope.

(** The files under [data/transforms]; the newest write comes first. *)
Definition files : Type := list (string * list frame).

Fixpoint read_file (p : string) (fs : files) : result (list frame) :=
  match fs with
  | [] => Raise SoundFileError
  | (q, a) :: fs' => if String.eqb q p then Ok a else read_file p fs'
  end.

Definition sf_read (p : string) : M files (list frame) :=
  fun fs => lift (read_file p fs) fs.

Definition build_file (transform : string) (newparams : dict)
    (f outf : string) : M files unit :=
  fun fs =>
    match kwargs newparams with
    | Raise e => Raise e
    | Ok kw =>
        match sox_build transform kw f with
        | Raise e => Raise e
        | Ok a => Ok (tt, (outf, a) :: fs)
        end
    end.

(** Lines 162-175.  A [variable] that is not a string cannot be a keyword:
    the call on line 174 raises in the first pass. *)
Fixpoint render (transform f : string) (variable : value) (params : dict)
    (values : list R) (outfiles : list string) : M files (list string) :=
  match values with
  | [] => ret outfiles
  | v :: values' =>
      match variable with
      | VStr label =>
          let outf := outfile transform f label v in
          let outfiles := (outfiles ++ [outf])%list in
          let newparams := dict_set variable (VFloat v) params in
          _ <- build_file transform newparams f outf ;;
          render transform f variable params values' outfiles
      | _ => fun _ => Raise TypeError
      end
  end.

(** Lines 178-185. *)
Fixpoint distances (outfiles rest : list string) (dists : list R)
    : M files (list R) :=
  match rest with
  | [] => ret dists
  | outf2 :: rest' =>
      input <- sf_read outf2 ;;
      anchor <- lift (match outfiles with
                      | p :: _ => Ok p
                      | [] => Raise IndexError
                      end) ;;
      target <- sf_read anchor ;;
      let (input, target) := truncate input target in
      distances outfiles rest' (dists ++ [dist input target])%list
  end.

(** Lines 177-187; the printed coefficient is the result. *)
Definition validate (outfiles : list string) : M files coefficient :=
  dists <- distances outfiles (tl outfiles) [] ;;
  ret (spearmanr dists (seq 0 (List.length dists))).

(** Line 160-161. *)
Definition relabel (variable : value) : value :=
  if py_eq variable (VStr "midi") then VStr "frequency" else variable.

Definition with_rng {A} (c : M rng A) : M (rng * files) A :=
  fun '(g, fs) =>
    match c g with
    | Ok (a, g') => Ok (a, (g', fs))
    | Raise e => Raise e
    end.

Definition with_files {A} (c : M files A) : M (rng * files) A :=
  fun '(g, fs) =>
    match c fs with
    | Ok (a, fs') => Ok (a, (g, fs'))
    | Raise e => Raise e
    end.

Definition transform_file (f : string) : M (rng * files) coefficient :=
  transform_spec <- with_rng (choice transforms) ;;
  let transform := name transform_spec in
  s <- with_rng (sample transform_spec) ;;
  let variable := relabel (variable s) in
  outfiles <- with_files
    (render transform f variable (params s) (variable_values s) []) ;;
  with_files (validate outfiles).

(** Lines 190-191: one coefficient is printed per file, in the order of the
    files; the first exception ends the run. *)
Fixpoint driver (inputs : list string) : M (rng * files) (list coefficient) :=
  match inputs with
  | [] => ret []
  | f :: inputs' =>
      c <- transform_file f ;;
      cs <- driver inputs' ;;
      ret (c :: cs)
  end.

End Pipeline.

(** ** The data-model invariant of the catalog *)

(** Name and numeric bounds of a [(paramName, low, high)] entry. *)
Definition entry_bounds (e : entry) : option (string * R * R) :=
  match e with
  | ETuple [VStr n; lo; hi] =>
      match as_num lo, as_num hi with
      | Some a, Some b => Some (n, a, b)
      | _, _ => None
      end
  | _ => None
  end.

Definition well_formed_entry (e : entry) : Prop :=
  match entry_bounds e with
  | Some (_, a, b) => a <= b
  | None => False
  end.

Definition well_formed (spec : transform_spec) : Prop :=
  continuous spec <> []
  /\ Forall well_formed_entry (continuous spec)
  /\ Forall (fun c => snd c <> []) (categorical spec).

(** The interval a sweep over [e] must stay in: the bounds of [e], mapped to
    frequencies when the axis is ["midi"]. *)
Definition sweep_bounds (e : entry) : option (R * R) :=
  match entry_bounds e with
  | Some (n, a, b) =>
      if String.eqb n "midi" then Some (note_to_freq a, note_to_freq b)
      else Some (a, b)
  | None => None
  end.

Definition pitch_spec : transform_spec :=
  Spec "pitch"
    [EStr "n_semitones"; ETuple [VInt (-12); VInt 12]]
    [("quick", [VBool true; VBool false])].

Definition ascending (l : list R) : Prop := StronglySorted Rle l.

(** ** A generator for examples

    The state counts the draws made so far: draw number [k] of the unit
    interval is [1/(k+2)], and an index draw below [n] is [k mod n]. *)

Definition counter_random (k : nat) : R * nat := (/ (INR k + 2), S k).

Definition counter_randbelow (n k : nat) : nat * nat := (Nat.modulo k n, S k).

Lemma counter_random_unit k : 0 <= fst (counter_random k) < 1.
Proof.
  simpl. pose proof (pos_INR k) as Hk.
  assert (0 < / (INR k + 2)) by (apply Rinv_0_lt_compat; lra).
  split; [lra|].
  rewrite <- Rinv_1. apply Rinv_lt_contravar; lra.
Qed.

Lemma counter_randbelow_lt n k :
  (0 < n)%nat -> (fst (counter_randbelow n k) < n)%nat.
Proof. intros Hn. simpl. apply Nat.mod_upper_bound. lia. Qed.

Definition counter_gen : RandomGen := {|
  rng := nat;
  random := counter_random;
  randbelow := counter_randbelow;
  random_unit := counter_random_unit;
  randbelow_lt := counter_randbelow_lt
|}.

(** ** Vocabulary of the statements *)

(** The keyword a continuous parameter is passed under (lines 131-135). *)
Definition label (n : string) : string :=
  if String.eqb n "midi" then "frequency" else n.

Definition string_keys (d : dict) : Prop :=
  Forall (fun kv => exists s, fst kv = VStr s) d.

(** Names of the well-shaped continuous entries of a specification. *)
Definition continuous_names (spec : transform_spec) : list string :=
  flat_map (fun e => match entry_bounds e with
                     | Some (n, _, _) => [n]
                     | None => []
                     end) (continuous spec).

(** Every keyword a specification can give rise to. *)
Definition parameter_labels (spec : transform_spec) : list string :=
  (map label (continuous_names spec) ++ map fst (categorical spec))%list.

(** The keywords that are drawn once per file when [n] is the variable. *)
Definition fixed_labels (spec : transform_spec) (n : string) : list string :=
  (map label (filter (fun m => negb (String.eqb m n)) (continuous_names spec))
   ++ map fst (categorical spec))%list.

Fixpoint distinct (l : list string) : bool :=
  match l with
  | [] => true
  | x :: l' => negb (existsb (String.eqb x) l') && distinct l'
  end.

(** The frames of the file at [p], empty when there is none. *)
Definition content {C : Collaborators} (fs : list (string * list frame))
    (p : string) : list frame :=
  match read_file p fs with
  | Ok a => a
  | Raise _ => []
  end.

(** ** Collaborators for examples

    A reference rank correlation (Pearson's coefficient of the average
    ranks, undefined when a variance vanishes), the sum of absolute
    differences as distance, and an engine whose output lists the numeric
    keywords it was given. *)

Fixpoint Rsum (l : list R) : R :=
  match l with
  | [] => 0
  | x :: l' => x + Rsum l'
  end.

Definition mean (l : list R) : R := Rsum l / INR (List.length l).

Definition count_lt (xs : list R) (x : R) : nat :=
  List.length (filter (fun y => if Rlt_dec y x then true else false) xs).

Definition count_eq (xs : list R) (x : R) : nat :=
  List.length (filter (fun y => Reqb y x) xs).

Definition rank_in (xs : list R) (x : R) : R :=
  INR (count_lt xs x) + (INR (count_eq xs x) + 1) / 2.

Definition ranks (xs : list R) : list R := map (rank_in xs) xs.

Definition deviations (xs : list R) : list R :=
  map (fun x => x - mean xs) xs.

Definition pearson (xs ys : list R) : coefficient :=
  let dx := deviations xs in
  let dy := deviations ys in
  let sxy := Rsum (map (fun p => fst p * snd p) (combine dx dy)) in
  let sxx := Rsum (map (fun d => d * d) dx) in
  let syy := Rsum (map (fun d => d * d) dy) in
  if Req_EM_T (sxx * syy) 0 then NaN else Coef (sxy / sqrt (sxx * syy)).

Definition reference_spearmanr (a : list R) (b : list nat) : coefficient :=
  pearson (ranks a) (ranks (map INR b)).

Definition example_collaborators : Collaborators := {|
  frame := R;
  sox_build := fun _ kw _ =>
    Ok (map (fun kv => match as_num (snd kv) with
                       | Some x => x
                       | None => 0
                       end) kw);
  dist := fun a b =>
    Rsum (map (fun p => Rabs (fst p - snd p)) (combine a b));
  spearmanr := reference_spearmanr
|}.

(** The distance of the file at [p] from the file at [anchor], as one pass
    of the loop of lines 178-185 computes it. *)
Definition distance_from {C : Collaborators} (fs : list (string * list frame))
    (anchor p : string) : R :=
  let (input, target) := truncate (content fs p) (content fs anchor) in
  dist input target.

Definition flanger_spec : transform_spec :=
  Spec "flanger"
    [tup3 "delay" (VInt 0) (VInt 30);
     tup3 "depth" (VInt 0) (VInt 10);
     tup3 "regen" (VInt (-95)) (VInt 95);
     tup3 "width" (VInt 0) (VInt 100);
     tup3 "speed" (VFloat 0.1) (VFloat 10.0);
     tup3 "phase" (VInt 0) (VInt 100)]
    [("shape", [VStr "triangle"; VStr "sine"]);
     ("interp", [VStr "linear"; VStr "quadratic"])].

(** A sequence without two different entries. *)
Definition constant (l : list R) : Prop :=
  forall x y, In x l -> In y l -> x = y.

(** The degenerate inputs of a rank correlation. *)
Definition degenerate (l : list R) : Prop :=
  (List.length l < 2)%nat \/ constant l.

(** ** Reading a formatted value back *)

Definition is_digit (c : ascii) : bool :=
  ((48 <=? N_of_ascii c) && (N_of_ascii c <=? 57))%N.

(** The number spelled by the digits of [s], other characters skipped. *)
Fixpoint parse_digits (acc : Z) (s : string) : Z :=
  match s with
  | EmptyString => acc
  | String c s' =>
      parse_digits
        (if is_digit c then (acc * 10 + (Z.of_N (N_of_ascii c) - 48))%Z
         else acc) s'
  end.

Definition thousandths (s : string) : Z := parse_digits 0 s.

Definition is_negative (s : string) : bool :=
  match s with
  | String "-" _ => true
  | _ => false
  end.

(** ** Vocabulary of the further properties *)

(** A dictionary with string keys, written as pairs of key and value. *)
Definition keywords (l : list (string * value)) : dict :=
  map (fun kv => (VStr (fst kv), snd kv)) l.

(** The interval a value drawn once for the entry of bounds [a] and [b] and
    name [m] lies in. *)
Definition within (m : string) (a b x : R) : Prop :=
  if String.eqb m "midi"
  then note_to_freq a <= x <= note_to_freq b
  else a <= x <= b.

(** The value a formatted string stands for. *)
Definition unformat (s : string) : R :=
  (if is_negative s then -1 else 1) * IZR (thousandths s) / 1000.


(** What the engine returns for the sweep value [v]: the template overlaid
    with [v] is passed as keywords (lines 171-175). *)
Definition rendered {C : Collaborators} (transform f label : string)
    (params : dict) (v : R) : result (list frame) :=
  match kwargs (dict_set (VStr label) (VFloat v) params) with
  | Ok kw => sox_build transform kw f
  | Raise e => Raise e
  end.


(** * Properties *)

(** ** The monad *)

Lemma bind_ok {S A B} (c : M S A) (k : A -> M S B) s b s2 :
  bind c k s = Ok (b, s2) ->
  exists a s1, c s = Ok (a, s1) /\ k a s1 = Ok (b, s2).
Proof.
  unfold bind. destruct (c s) as [[a s1]|e]; [|discriminate].
  intros H. exists a, s1. split; [reflexivity|exact H].
Qed.

Lemma bind_step {S A B} (c : M S A) (k : A -> M S B) s a s1 :
  c s = Ok (a, s1) -> bind c k s = k a s1.
Proof. unfold bind. intros ->. reflexivity. Qed.

Lemma bind_raise {S A B} (c : M S A) (k : A -> M S B) s e :
  c s = Raise e -> bind c k s = Raise e.
Proof. unfold bind. intros ->. reflexivity. Qed.

(** ** Midi notes and frequencies *)


Lemma note_to_freq_increasing v1 v2 :
  v1 < v2 -> note_to_freq v1 < note_to_freq v2.
Proof.
  intros Hlt. unfold note_to_freq.
  apply Rmult_lt_compat_l; [lra|].
  apply Rpower_lt; lra.
Qed.

Lemma note_to_freq_lt_inv v1 v2 :
  note_to_freq v1 < note_to_freq v2 -> v1 < v2.
Proof.
  intros Hlt. destruct (Rtotal_order v1 v2) as [H|[H|H]]; [exact H| |].
  - subst. lra.
  - apply note_to_freq_increasing in H. lra.
Qed.

Lemma note_to_freq_monotone v1 v2 :
  v1 <= v2 -> note_to_freq v1 <= note_to_freq v2.
Proof.
  intros [H|H]; [left; now apply note_to_freq_increasing | subst; lra].
Qed.

(** ** Sorting *)

Section SortMap.
Variable f : R -> R.
Hypothesis f_increasing : forall x y, x < y -> f x < f y.




End SortMap.

Lemma insert_sorted_perm x l : Permutation (x :: l) (insert_sorted x l).
Proof.
  induction l as [|y l IH]; simpl; [reflexivity|].
  destruct (Rlt_dec y x).
  - rewrite perm_swap. now constructor.
  - reflexivity.
Qed.

Lemma py_sort_perm l : Permutation l (py_sort l).
Proof.
  induction l as [|x l IH]; simpl; [constructor|].
  rewrite <- insert_sorted_perm. now constructor.
Qed.

Lemma insert_sorted_ascending x l :
  ascending l -> ascending (insert_sorted x l).
Proof.
  unfold ascending. induction l as [|y l IH]; simpl; intros Hs.
  - repeat constructor.
  - apply StronglySorted_inv in Hs. destruct Hs as [Hl Hy].
    destruct (Rlt_dec y x) as [H|H].
    + constructor; [now apply IH|].
      rewrite <- insert_sorted_perm. constructor; [lra|exact Hy].
    + constructor; [now constructor|].
      constructor; [lra|].
      rewrite Forall_forall in *. intros z Hz. specialize (Hy z Hz). lra.
Qed.

Lemma py_sort_ascending l : ascending (py_sort l).
Proof.
  induction l as [|x l IH]; simpl; [constructor|].
  now apply insert_sorted_ascending.
Qed.

Lemma py_sort_length l : List.length (py_sort l) = List.length l.
Proof. symmetry. apply Permutation_length, py_sort_perm. Qed.

Lemma py_sort_Forall (P : R -> Prop) l : Forall P l -> Forall P (py_sort l).
Proof. intros H. now rewrite <- py_sort_perm. Qed.

(** An ascending list is left as it is. *)
Lemma insert_sorted_head x l :
  Forall (Rle x) l -> insert_sorted x l = x :: l.
Proof.
  destruct l as [|y l]; simpl; [reflexivity|].
  intros H. inversion H; subst.
  destruct (Rlt_dec y x); [lra|reflexivity].
Qed.

Lemma py_sort_ascending_id l : ascending l -> py_sort l = l.
Proof.
  unfold ascending. induction l as [|x l IH]; simpl; intros Hs; [reflexivity|].
  apply StronglySorted_inv in Hs. destruct Hs as [Hl Hx].
  rewrite IH by exact Hl. now apply insert_sorted_head.
Qed.

(** ** The draws of a sweep *)

Section Draws.
Context {G : RandomGen}.




End Draws.



(** ** Equality of values and dictionaries *)

Lemma Reqb_refl x : Reqb x x = true.
Proof. unfold Reqb. destruct (Req_EM_T x x); [reflexivity|contradiction]. Qed.

Lemma Reqb_eq x y : Reqb x y = true <-> x = y.
Proof.
  unfold Reqb. destruct (Req_EM_T x y); split; auto; discriminate.
Qed.

Lemma py_eq_str s t : py_eq (VStr s) (VStr t) = String.eqb s t.
Proof. reflexivity. Qed.

Lemma py_eq_refl k : py_eq k k = true.
Proof.
  destruct k; unfold py_eq; simpl;
    auto using Reqb_refl, String.eqb_refl.
Qed.

Lemma py_eq_sym a b : py_eq a b = py_eq b a.
Proof.
  assert (HR : forall x y, Reqb x y = Reqb y x).
  { intros x y. unfold Reqb.
    destruct (Req_EM_T x y), (Req_EM_T y x); congruence. }
  destruct a, b; unfold py_eq; simpl; auto using String.eqb_sym.
Qed.

Lemma py_eq_trans a b c :
  py_eq a b = true -> py_eq b c = true -> py_eq a c = true.
Proof.
  destruct a, b, c; unfold py_eq; simpl;
    rewrite ?Reqb_eq, ?String.eqb_eq; try congruence; try discriminate.
Qed.

Lemma dict_get_set_same k v d : dict_get k (dict_set k v d) = Some v.
Proof.
  induction d as [|[k' v'] d IH]; simpl.
  - now rewrite py_eq_refl.
  - destruct (py_eq k' k) eqn:E; simpl; rewrite E; auto.
Qed.

Lemma dict_get_set_other k0 k v d :
  py_eq k0 k = false -> dict_get k (dict_set k0 v d) = dict_get k d.
Proof.
  intros Hk. induction d as [|[k' v'] d IH]; simpl.
  - now rewrite Hk.
  - destruct (py_eq k' k0) eqn:E; simpl.
    + destruct (py_eq k' k) eqn:E'; [|reflexivity].
      rewrite py_eq_sym in E.
      rewrite (py_eq_trans _ _ _ E E') in Hk. discriminate.
    + destruct (py_eq k' k); [reflexivity|exact IH].
Qed.

(** A key, once set, stays. *)
Lemma dict_set_keeps k0 v d k :
  dict_get k d <> None -> dict_get k (dict_set k0 v d) <> None.
Proof.
  intros H. destruct (py_eq k0 k) eqn:E.
  - induction d as [|[k' v'] d IH]; simpl in *; [contradiction|].
    destruct (py_eq k' k0) eqn:E0; simpl.
    + destruct (py_eq k' k); [discriminate|].
      exact H.
    + destruct (py_eq k' k); [discriminate|]. now apply IH.
  - now rewrite dict_get_set_other.
Qed.

Lemma dict_set_string_keys s v d :
  string_keys d -> string_keys (dict_set (VStr s) v d).
Proof.
  unfold string_keys. induction d as [|[k' v'] d IH]; simpl; intros H.
  - constructor; [now exists s|constructor].
  - inversion H; subst. destruct (py_eq k' (VStr s)).
    + constructor; assumption.
    + constructor; [assumption|now apply IH].
Qed.

Lemma kwargs_string_keys d :
  string_keys d -> exists kw, kwargs d = Ok kw.
Proof.
  unfold string_keys. induction d as [|[k v] d IH]; intros H.
  - now exists [].
  - inversion H as [|? ? [s Hs] Hd]; subst. simpl in Hs. subst k.
    destruct (IH Hd) as [kw Hkw]. exists ((s, v) :: kw).
    simpl. now rewrite Hkw.
Qed.

(** ** Draws *)

Section SampleFacts.
Context {G : RandomGen}.

Lemma choice_eq {A} (seq : list A) g :
  choice seq g =
    match nth_error seq (fst (randbelow (List.length seq) g)) with
    | Some a => Ok (a, snd (randbelow (List.length seq) g))
    | None => Raise IndexError
    end.
Proof.
  unfold choice. destruct seq as [|x seq].
  - now destruct (fst (randbelow (List.length (@nil A)) g)).
  - now destruct (randbelow (List.length (x :: seq)) g).
Qed.

Lemma choice_inv {A} (seq : list A) g a g' :
  choice seq g = Ok (a, g') -> In a seq.
Proof.
  unfold choice. destruct seq as [|x seq]; [discriminate|].
  destruct (randbelow _ g) as [i g1].
  destruct (nth_error (x :: seq) i) eqn:E; [|discriminate].
  intros H. inversion H; subst. eapply nth_error_In; eauto.
Qed.

Lemma choice_ok {A} (seq : list A) g :
  seq <> [] -> exists a g', choice seq g = Ok (a, g') /\ In a seq.
Proof.
  intros Hne. unfold choice. destruct seq as [|x seq]; [contradiction|].
  pose proof (randbelow_lt (List.length (x :: seq)) g) as Hlt.
  destruct (randbelow _ g) as [i g1]. simpl fst in Hlt.
  destruct (nth_error (x :: seq) i) eqn:E.
  - exists a, g1. split; [reflexivity|]. eapply nth_error_In; eauto.
  - apply nth_error_None in E. simpl in *. lia.
Qed.

Lemma uniform_ok low hi a b g :
  as_num low = Some a -> as_num hi = Some b -> a <= b ->
  exists v g', uniform low hi g = Ok (v, g') /\ a <= v <= b.
Proof.
  intros Ha Hb Hab. unfold uniform. rewrite Ha, Hb.
  pose proof (random_unit g) as Hu.
  destruct (random g) as [u g1]. simpl in Hu.
  exists (a + (b - a) * u), g1. split; [reflexivity|]. nra.
Qed.

Lemma uniform_inv low hi g v g' :
  uniform low hi g = Ok (v, g') ->
  exists a b, as_num low = Some a /\ as_num hi = Some b
              /\ (a <= b -> a <= v <= b).
Proof.
  unfold uniform.
  destruct (as_num low) as [a|]; [|discriminate].
  destruct (as_num hi) as [b|]; [|discriminate].
  pose proof (random_unit g) as Hu.
  destruct (random g) as [u g1]. simpl in Hu.
  intros H. inversion H; subst. exists a, b. repeat split; auto; nra.
Qed.

End SampleFacts.

(** ** Sampling a well-formed specification *)

Lemma well_formed_entry_inv e :
  well_formed_entry e ->
  exists n lo hi a b,
    e = ETuple [VStr n; lo; hi] /\ entry_bounds e = Some (n, a, b)
    /\ as_num lo = Some a /\ as_num hi = Some b /\ a <= b.
Proof.
  unfold well_formed_entry. destruct e as [items|s]; simpl; [|tauto].
  destruct items as [|[| |n| |] [|lo [|hi [|]]]]; simpl; try tauto.
  destruct (as_num lo) as [a|] eqn:Ea; [|tauto].
  destruct (as_num hi) as [b|] eqn:Eb; [|tauto].
  intros H. exists n, lo, hi, a, b. simpl. rewrite Ea, Eb. auto.
Qed.

Lemma relabel_str n : relabel (VStr n) = VStr (label n).
Proof.
  unfold relabel, label. rewrite py_eq_str. now destruct (String.eqb n "midi").
Qed.

Section SampleWellFormed.
Context {G : RandomGen}.

Lemma choose_value_ok n lo hi a b g :
  as_num lo = Some a -> as_num hi = Some b -> a <= b ->
  exists v g',
    choose_value (VStr n) lo hi g = Ok ((VStr (label n), v), g')
    /\ (if String.eqb n "midi"
        then note_to_freq a <= v <= note_to_freq b
        else a <= v <= b).
Proof.
  intros Ha Hb Hab.
  destruct (uniform_ok lo hi a b g Ha Hb Hab) as (v & g' & Hu & Hv).
  unfold choose_value, label. rewrite (bind_step _ _ _ _ _ Hu), py_eq_str.
  destruct (String.eqb n "midi").
  - exists (note_to_freq v), g'. split; [reflexivity|].
    split; apply note_to_freq_monotone; lra.
  - exists v, g'. split; [reflexivity|exact Hv].
Qed.

Lemma sample_continuous_tuple variable a b c l params g :
  sample_continuous variable (ETuple [a; b; c] :: l) params g =
    if py_eq a variable then sample_continuous variable l params g
    else
      match choose_value a b c g with
      | Ok ((param', v), g1) =>
          sample_continuous variable l (dict_set param' (VFloat v) params) g1
      | Raise e => Raise e
      end.
Proof.
  simpl. unfold bind, lift.
  destruct (py_eq a variable); [reflexivity|].
  destruct (choose_value a b c g) as [[[param' v] g1]|e]; reflexivity.
Qed.

Lemma draw_values_tuple k variable a b c g :
  draw_values (S k) variable (ETuple [a; b; c]) g =
    match choose_value variable b c g with
    | Ok ((_, v), g1) =>
        match draw_values k variable (ETuple [a; b; c]) g1 with
        | Ok (vs, g2) => Ok (v :: vs, g2)
        | Raise e => Raise e
        end
    | Raise e => Raise e
    end.
Proof.
  simpl. unfold bind, lift, ret. simpl.
  destruct (choose_value variable b c g) as [[[param' v] g1]|e];
    reflexivity.
Qed.

Lemma sample_continuous_ok variable l :
  Forall well_formed_entry l ->
  forall params g, string_keys params ->
  exists params' g',
    sample_continuous variable l params g = Ok (params', g')
    /\ string_keys params'
    /\ (forall k, dict_get k params <> None -> dict_get k params' <> None)
    /\ (forall e n a b, In e l -> entry_bounds e = Some (n, a, b) ->
          py_eq (VStr n) variable = false ->
          dict_get (VStr (label n)) params' <> None).
Proof.
  induction 1 as [|e l He Hl IH]; intros params g Hk.
  - exists params, g. simpl.
    split; [reflexivity|]. split; [assumption|]. split; [auto|].
    intros ? ? ? ? [].
  - destruct (well_formed_entry_inv e He)
      as (n & lo & hi & a & b & -> & Hb & Ha & Hb' & Hab).
    rewrite sample_continuous_tuple.
    destruct (py_eq (VStr n) variable) eqn:Ev.
    + destruct (IH params g Hk) as (p' & g' & Hrun & Hk' & Hkeep & Hin).
      exists p', g'. repeat split; auto.
      intros e' n' a' b' [<-|Hin'] Hb0 Hne.
      * rewrite Hb in Hb0. inversion Hb0; subst. congruence.
      * eapply Hin; eauto.
    + destruct (choose_value_ok n lo hi a b g Ha Hb' Hab)
        as (v & g1 & Hc & _).
      rewrite Hc.
      destruct (IH (dict_set (VStr (label n)) (VFloat v) params) g1)
        as (p' & g' & Hrun & Hk' & Hkeep & Hin).
      { now apply dict_set_string_keys. }
      exists p', g'. repeat split; auto.
      * intros k Hget. apply Hkeep. now apply dict_set_keeps.
      * intros e' n' a' b' [<-|Hin'] Hb0 Hne.
        -- rewrite Hb in Hb0. inversion Hb0; subst.
           apply Hkeep. rewrite dict_get_set_same. discriminate.
        -- eapply Hin; eauto.
Qed.

Lemma sample_categorical_ok l :
  Forall (fun c => snd c <> []) l ->
  forall params g, string_keys params ->
  exists params' g',
    sample_categorical l params g = Ok (params', g')
    /\ string_keys params'
    /\ (forall k, dict_get k params <> None -> dict_get k params' <> None)
    /\ (forall c, In c l -> dict_get (VStr (fst c)) params' <> None).
Proof.
  induction 1 as [|[c vals] l Hc Hl IH]; intros params g Hk.
  - exists params, g. simpl.
    split; [reflexivity|]. split; [assumption|]. split; [auto|].
    intros ? [].
  - simpl in Hc. simpl sample_categorical.
    destruct (choice_ok vals g Hc) as (x & g1 & Hx & _).
    rewrite (bind_step _ _ _ _ _ Hx).
    destruct (IH (dict_set (VStr c) x params) g1)
      as (p' & g' & Hrun & Hk' & Hkeep & Hin).
    { now apply dict_set_string_keys. }
    exists p', g'. repeat split; auto.
    + intros k Hget. apply Hkeep. now apply dict_set_keeps.
    + intros c' [<-|Hin'].
      * simpl. apply Hkeep. rewrite dict_get_set_same. discriminate.
      * now apply Hin.
Qed.

Lemma draw_values_ok k n lo hi a b :
  as_num lo = Some a -> as_num hi = Some b -> a <= b ->
  forall g,
  exists vs g',
    draw_values k (VStr n) (ETuple [VStr n; lo; hi]) g = Ok (vs, g')
    /\ List.length vs = k
    /\ Forall (fun v => if String.eqb n "midi"
                        then note_to_freq a <= v <= note_to_freq b
                        else a <= v <= b) vs.
Proof.
  intros Ha Hb Hab. induction k as [|k IH]; intros g.
  - exists [], g. simpl. repeat split; auto.
  - rewrite draw_values_tuple.
    destruct (choose_value_ok n lo hi a b g Ha Hb Hab) as (v & g1 & Hc & Hv).
    rewrite Hc.
    destruct (IH g1) as (vs & g2 & Hd & Hlen & Hall).
    rewrite Hd.
    exists (v :: vs), g2. simpl. repeat split; auto.
Qed.

(** Sampling a well-formed specification returns, and what it returns. *)
Lemma sample_well_formed spec g :
  well_formed spec ->
  exists s g' n lo hi a b,
    sample spec g = Ok (s, g')
    /\ In (variable_spec s) (continuous spec)
    /\ variable_spec s = ETuple [VStr n; lo; hi]
    /\ entry_bounds (variable_spec s) = Some (n, a, b)
    /\ a <= b
    /\ variable s = VStr n
    /\ List.length (variable_values s) = N_TRANSFORMS
    /\ ascending (variable_values s)
    /\ Forall (fun v => if String.eqb n "midi"
                        then note_to_freq a <= v <= note_to_freq b
                        else a <= v <= b) (variable_values s)
    /\ string_keys (params s)
    /\ (forall m a' b' e, In e (continuous spec) ->
          entry_bounds e = Some (m, a', b') -> String.eqb m n = false ->
          dict_get (VStr (label m)) (params s) <> None)
    /\ (forall c, In c (categorical spec) ->
          dict_get (VStr (fst c)) (params s) <> None).
Proof.
  intros (Hne & Hcont & Hcat). unfold sample.
  destruct (choice_ok (continuous spec) g Hne) as (e & g1 & He & Hin).
  rewrite (bind_step _ _ _ _ _ He).
  rewrite Forall_forall in Hcont.
  destruct (well_formed_entry_inv e (Hcont e Hin))
    as (n & lo & hi & a & b & -> & Hb & Ha & Hb' & Hab).
  unfold bind at 1. simpl lift.
  destruct (sample_continuous_ok (VStr n) (continuous spec)) with
    (params := @nil (value * value)) (g := g1)
    as (p1 & g2 & Hc1 & Hk1 & _ & Hin1).
  { now apply Forall_forall. }
  { constructor. }
  rewrite (bind_step _ _ _ _ _ Hc1).
  destruct (sample_categorical_ok (categorical spec) Hcat p1 g2 Hk1)
    as (p2 & g3 & Hc2 & Hk2 & Hkeep2 & Hin2).
  rewrite (bind_step _ _ _ _ _ Hc2).
  destruct (draw_values_ok N_TRANSFORMS n lo hi a b Ha Hb' Hab g3)
    as (vs & g4 & Hd & Hlen & Hall).
  rewrite (bind_step _ _ _ _ _ Hd).
  eexists. exists g4, n, lo, hi, a, b.
  split; [reflexivity|].
  cbn [variable_spec variable params variable_values].
  split; [exact Hin|]. split; [reflexivity|]. split; [exact Hb|].
  split; [exact Hab|]. split; [reflexivity|].
  split; [now rewrite py_sort_length|].
  split; [apply py_sort_ascending|].
  split; [now apply py_sort_Forall|].
  split; [exact Hk2|].
  split; [|exact Hin2].
  intros m a' b' e Hine Hbe Hmn. apply Hkeep2.
  eapply Hin1; eauto.
Qed.

End SampleWellFormed.

(** ** The catalog *)

Lemma distinct_NoDup l : distinct l = true -> NoDup l.
Proof.
  induction l as [|x l IH]; simpl; intros H; [constructor|].
  apply andb_true_iff in H. destruct H as [Hx Hl].
  constructor; [|now apply IH].
  intros Hin. apply negb_true_iff in Hx.
  assert (existsb (String.eqb x) l = true); [|congruence].
  apply existsb_exists. exists x. split; [exact Hin|apply String.eqb_refl].
Qed.

Lemma pitch_in_catalog : nth_error transforms 16 = Some pitch_spec.
Proof. reflexivity. Qed.

Ltac well_formed_tac :=
  split; [discriminate|];
  split;
    [repeat (constructor; [unfold well_formed_entry; simpl; lra|]);
     constructor
    |repeat (constructor; [simpl; discriminate|]); constructor].

(** Every entry but ["pitch"] has the declared shape. *)
Lemma catalog_well_formed :
  Forall (fun spec => name spec = "pitch" \/ well_formed spec) transforms.
Proof.
  unfold transforms.
  repeat (constructor;
          [first [left; reflexivity | right; well_formed_tac]|]).
  constructor.
Qed.

Lemma catalog_labels_distinct :
  Forall (fun spec => NoDup (parameter_labels spec)) transforms.
Proof.
  unfold transforms.
  repeat (constructor; [apply distinct_NoDup; reflexivity|]).
  constructor.
Qed.


Lemma in_catalog_well_formed spec :
  In spec transforms -> name spec <> "pitch" -> well_formed spec.
Proof.
  intros Hin Hn. pose proof catalog_well_formed as H.
  rewrite Forall_forall in H. destruct (H spec Hin); [contradiction|assumption].
Qed.

Lemma pitch_only_malformed spec :
  In spec transforms -> name spec = "pitch" -> spec = pitch_spec.
Proof.
  unfold transforms. simpl.
  intros H Hn.
  repeat (destruct H as [<-|H]; [try reflexivity; discriminate Hn|]).
  contradiction.
Qed.

Section Pitch.
Context {G : RandomGen}.

(** With the ["pitch"] entry the loop of lines 144-148 stops at its first
    element, the string ["n_semitones"], whichever axis was drawn. *)
Lemma sample_pitch_raises g : sample pitch_spec g = Raise ValueError.
Proof.
  unfold sample, pitch_spec. cbn [continuous categorical].
  unfold bind at 1. unfold choice.
  pose proof (randbelow_lt 2 g) as Hlt.
  cbn [List.length].
  destruct (randbelow 2 g) as [i g1]. simpl fst in Hlt.
  destruct i as [|[|i]]; [reflexivity|reflexivity|lia].
Qed.

End Pitch.

(** ** Rendering and validation *)

Section PipelineFacts.
Context {G : RandomGen} {C : Collaborators}.

Lemma build_file_ok t newparams f outf fs fs' :
  build_file t newparams f outf fs = Ok (tt, fs') ->
  exists kw a,
    kwargs newparams = Ok kw /\ sox_build t kw f = Ok a
    /\ fs' = (outf, a) :: fs.
Proof.
  unfold build_file.
  destruct (kwargs newparams) as [kw|]; [|discriminate].
  destruct (sox_build t kw f) as [a|] eqn:Ea; [|discriminate].
  intros H. inversion H. now exists kw, a.
Qed.

(** What a completed rendering loop has done: one path per value, in sweep
    order, and one file per value, each the engine's output for the
    template overlaid with that value. *)
Lemma render_spec values : forall t f l params outs fs outs' fs',
  render t f (VStr l) params values outs fs = Ok (outs', fs') ->
  outs' = (outs ++ map (outfile t f l) values)%list
  /\ exists written,
       fs' = (rev written ++ fs)%list
       /\ Forall2 (fun v w =>
            fst w = outfile t f l v
            /\ exists kw,
                 kwargs (dict_set (VStr l) (VFloat v) params) = Ok kw
                 /\ sox_build t kw f = Ok (snd w)) values written.
Proof.
  induction values as [|v values IH]; intros t f l params outs fs outs' fs' H.
  - simpl in H. unfold ret in H. inversion H; subst.
    split; [now rewrite app_nil_r|]. exists []. split; [reflexivity|constructor].
  - simpl in H. apply bind_ok in H. destruct H as ([] & fs1 & Hb & Hr).
    apply build_file_ok in Hb. destruct Hb as (kw & a & Hkw & Ha & ->).
    apply IH in Hr. destruct Hr as (-> & written & -> & Hall).
    split; [now rewrite <- app_assoc|].
    exists ((outfile t f l v, a) :: written). split.
    + simpl. now rewrite <- app_assoc.
    + constructor; [|exact Hall]. split; [reflexivity|]. now exists kw.
Qed.

Lemma render_returns t f l params :
  string_keys params ->
  (forall kw, exists a, sox_build t kw f = Ok a) ->
  forall values outs fs,
  exists outs' fs', render t f (VStr l) params values outs fs = Ok (outs', fs').
Proof.
  intros Hk Hsox. induction values as [|v values IH]; intros outs fs.
  - now exists outs, fs.
  - simpl.
    destruct (kwargs_string_keys (dict_set (VStr l) (VFloat v) params))
      as [kw Hkw]; [now apply dict_set_string_keys|].
    destruct (Hsox kw) as [a Ha].
    destruct (IH (outs ++ [outfile t f l v])%list
                 ((outfile t f l v, a) :: fs)) as (outs' & fs' & Hr).
    exists outs', fs'. erewrite bind_step; [exact Hr|].
    unfold build_file. now rewrite Hkw, Ha.
Qed.

(** A variable that is not a string stops the loop in its first pass. *)
Lemma render_not_string t f variable params v values outs fs :
  (forall l, variable <> VStr l) ->
  render t f variable params (v :: values) outs fs = Raise TypeError.
Proof. intros H. destruct variable; try reflexivity. now destruct (H s). Qed.

Lemma read_file_written p (w : files) fs :
  In p (map fst w) -> exists a, read_file p (w ++ fs)%list = Ok a.
Proof.
  induction w as [|[q a] w IH]; simpl; [tauto|].
  intros [->|Hin].
  - exists a. now rewrite String.eqb_refl.
  - destruct (String.eqb q p); [now exists a|now apply IH].
Qed.

Lemma render_readable values t f l params fs outs' fs' :
  render t f (VStr l) params values [] fs = Ok (outs', fs') ->
  forall p, In p outs' -> exists a, read_file p fs' = Ok a.
Proof.
  intros H. apply render_spec in H. destruct H as (-> & written & -> & Hall).
  intros p Hp. apply read_file_written. simpl in Hp.
  rewrite map_rev, <- in_rev.
  clear - Hall Hp. induction Hall as [|v w vs ws [Hw _] _ IH]; simpl in *.
  - contradiction.
  - destruct Hp as [<-|Hp]; [now left|right; now apply IH].
Qed.

Lemma content_read fs p a : read_file p fs = Ok a -> content fs p = a.
Proof. unfold content. now intros ->. Qed.

Lemma distances_spec fs anchor others rest :
  (forall p, In p (anchor :: rest) -> exists a, read_file p fs = Ok a) ->
  forall dists,
  distances (anchor :: others) rest dists fs =
    Ok ((dists ++ map (distance_from fs anchor) rest)%list, fs).
Proof.
  induction rest as [|p rest IH]; intros Hread dists.
  - simpl. unfold ret. now rewrite app_nil_r.
  - destruct (Hread p) as [a Ha]; [right; now left|].
    destruct (Hread anchor) as [b Hb]; [now left|].
    simpl. unfold bind, sf_read, lift. rewrite Ha, Hb.
    destruct (truncate a b) as [input target] eqn:Et.
    rewrite IH.
    + rewrite <- app_assoc. simpl. unfold distance_from.
      rewrite (content_read _ _ _ Ha), (content_read _ _ _ Hb), Et.
      reflexivity.
    + intros q [<-|Hq]; [now exists b|]. apply Hread. right. now right.
Qed.

Lemma distances_inv outfiles rest : forall dists fs ds fs',
  distances outfiles rest dists fs = Ok (ds, fs') ->
  fs' = fs
  /\ (forall p, In p rest -> exists a, read_file p fs = Ok a)
  /\ (rest <> [] -> exists anchor others a,
        outfiles = anchor :: others /\ read_file anchor fs = Ok a).
Proof.
  induction rest as [|p rest IH]; intros dists fs ds fs' H.
  - simpl in H. unfold ret in H. inversion H; subst.
    split; [reflexivity|]. split; [intros ? []|]. congruence.
  - simpl in H. unfold bind, sf_read, lift in H.
    destruct (read_file p fs) as [a|] eqn:Ha; [|discriminate].
    destruct outfiles as [|anchor others]; [discriminate|].
    destruct (read_file anchor fs) as [b|] eqn:Hb; [|discriminate].
    destruct (truncate a b) as [input target].
    apply IH in H. destruct H as (-> & Hrest & _).
    split; [reflexivity|]. split.
    + intros q [<-|Hq]; [now exists a|now apply Hrest].
    + intros _. now exists anchor, others, b.
Qed.

Lemma validate_spec fs anchor rest :
  (forall p, In p (anchor :: rest) -> exists a, read_file p fs = Ok a) ->
  validate (anchor :: rest) fs =
    Ok (spearmanr (map (distance_from fs anchor) rest)
                  (seq 0 (List.length rest)), fs).
Proof.
  intros Hread. unfold validate. simpl tl.
  erewrite bind_step; [|now apply distances_spec].
  unfold ret. simpl. now rewrite length_map.
Qed.

Lemma validate_empty fs : validate [] fs = Ok (spearmanr [] [], fs).
Proof. reflexivity. Qed.

End PipelineFacts.

(** ** One file, from the draw of a transform to the coefficient *)

Section TransformFile.
Context {G : RandomGen} {C : Collaborators}.

Lemma transform_file_eq f g fs :
  transform_file f (g, fs) =
    match choice transforms g with
    | Raise e => Raise e
    | Ok (spec, g1) =>
        match sample spec g1 with
        | Raise e => Raise e
        | Ok (s, g2) =>
            match render (name spec) f (relabel (variable s)) (params s)
                    (variable_values s) [] fs with
            | Raise e => Raise e
            | Ok (outfiles, fs1) =>
                match validate outfiles fs1 with
                | Raise e => Raise e
                | Ok (c, fs2) => Ok (c, (g2, fs2))
                end
            end
        end
    end.
Proof.
  unfold transform_file, bind, with_rng, with_files.
  destruct (choice transforms g) as [[spec g1]|]; [|reflexivity].
  destruct (sample spec g1) as [[s g2]|]; [|reflexivity].
  destruct (render _ _ _ _ _ _ _) as [[outfiles fs1]|]; [|reflexivity].
  destruct (validate outfiles fs1) as [[c fs2]|]; reflexivity.
Qed.

Lemma validate_inv outfiles fs c fs' :
  validate outfiles fs = Ok (c, fs') ->
  fs' = fs
  /\ exists dists,
       distances outfiles (tl outfiles) [] fs = Ok (dists, fs)
       /\ c = spearmanr dists (seq 0 (List.length dists)).
Proof.
  unfold validate. intros H. apply bind_ok in H.
  destruct H as (dists & fs1 & Hd & Hr).
  pose proof (distances_inv _ _ _ _ _ _ Hd) as (-> & _).
  unfold ret in Hr. inversion Hr; subst.
  split; [reflexivity|]. now exists dists.
Qed.

Lemma transform_file_inv f g fs c g' fs' :
  transform_file f (g, fs) = Ok (c, (g', fs')) ->
  exists spec g1 s outfiles,
    choice transforms g = Ok (spec, g1)
    /\ In spec transforms
    /\ sample spec g1 = Ok (s, g')
    /\ render (name spec) f (relabel (variable s)) (params s)
         (variable_values s) [] fs = Ok (outfiles, fs')
    /\ validate outfiles fs' = Ok (c, fs').
Proof.
  rewrite transform_file_eq.
  destruct (choice transforms g) as [[spec g1]|] eqn:Hc; [|discriminate].
  destruct (sample spec g1) as [[s g2]|] eqn:Hs; [|discriminate].
  destruct (render _ _ _ _ _ _ _) as [[outfiles fs1]|] eqn:Hr; [|discriminate].
  destruct (validate outfiles fs1) as [[c' fs2]|] eqn:Hv; [|discriminate].
  intros H. inversion H; subst.
  pose proof (validate_inv _ _ _ _ Hv) as (-> & _).
  exists spec, g1, s, outfiles. repeat split; auto.
  eapply choice_inv; eauto.
Qed.

(** A run of [sample] on a catalog entry that returns: the entry is not
    ["pitch"], and the result is as [sample_well_formed] describes. *)
Lemma sample_catalog_inv spec g s g' :
  In spec transforms -> sample spec g = Ok (s, g') ->
  name spec <> "pitch" /\ well_formed spec.
Proof.
  intros Hin Hs.
  assert (Hn : name spec <> "pitch").
  { intros Hn. rewrite (pitch_only_malformed spec Hin Hn) in Hs.
    rewrite sample_pitch_raises in Hs. discriminate. }
  split; [exact Hn|now apply in_catalog_well_formed].
Qed.

Lemma choice_catalog_not_pitch g spec g1 :
  choice transforms g = Ok (spec, g1) ->
  fst (randbelow (List.length transforms) g) <> 16%nat ->
  name spec <> "pitch".
Proof.
  rewrite choice_eq.
  destruct (fst (randbelow (List.length transforms) g)) as [|i].
  { intros H _. inversion H; subst. discriminate. }
  intros H Hi.
  destruct (nth_error transforms (S i)) as [a|] eqn:E; [|discriminate].
  inversion H; subst. clear H.
  unfold transforms in E.
  do 15 (destruct i as [|i];
         [simpl in E; inversion E; subst; simpl; discriminate|]).
  destruct i as [|i]; [contradiction|].
  do 6 (destruct i as [|i];
        [simpl in E; inversion E; subst; simpl; discriminate|]).
  simpl in E. destruct i; discriminate.
Qed.

(** When the drawn transform is not ["pitch"] and the engine renders every
    assignment, the file is processed to the end. *)
Lemma transform_file_returns f g fs :
  (forall t kw, exists a, sox_build t kw f = Ok a) ->
  fst (randbelow (List.length transforms) g) <> 16%nat ->
  exists c g' fs', transform_file f (g, fs) = Ok (c, (g', fs')).
Proof.
  intros Hsox Hi. rewrite transform_file_eq.
  destruct (choice_ok transforms g) as (spec & g1 & Hc & Hin);
    [discriminate|].
  rewrite Hc.
  pose proof (choice_catalog_not_pitch _ _ _ Hc Hi) as Hn.
  destruct (sample_well_formed spec g1 (in_catalog_well_formed _ Hin Hn))
    as (s & g2 & n & lo & hi & a & b & Hs & _ & _ & _ & _ & Hv & Hlen & _
        & _ & Hk & _).
  rewrite Hs, Hv, relabel_str.
  destruct (render_returns (name spec) f (label n) (params s) Hk
              (Hsox (name spec)) (variable_values s) [] fs)
    as (outs & fs1 & Hr).
  rewrite Hr.
  pose proof (render_readable _ _ _ _ _ _ _ _ Hr) as Hread.
  apply render_spec in Hr. destruct Hr as (Houts & _).
  destruct outs as [|anchor rest].
  - rewrite validate_empty. now eexists _, _, _.
  - rewrite validate_spec by exact Hread. now eexists _, _, _.
Qed.

End TransformFile.

(** ** Claims about sampling and the catalog *)

(** The sweep of a well-shaped catalog entry: the variable axis is an entry
    of the continuous list, and the sweep has [N_TRANSFORMS] ascending values
    inside the bounds of that axis (converted when the axis is ["midi"]). *)
Theorem sample_sweep_in_bounds (G : RandomGen) spec g :
  In spec transforms -> name spec <> "pitch" ->
  exists s g' lo hi,
    sample spec g = Ok (s, g')
    /\ In (variable_spec s) (continuous spec)
    /\ getitem (variable_spec s) 0 = Ok (variable s)
    /\ List.length (variable_values s) = 32%nat
    /\ ascending (variable_values s)
    /\ sweep_bounds (variable_spec s) = Some (lo, hi)
    /\ Forall (fun v => lo <= v <= hi) (variable_values s).
Proof.
  intros Hin Hn.
  destruct (sample_well_formed spec g (in_catalog_well_formed _ Hin Hn))
    as (s & g' & n & lo & hi & a & b & Hs & Hvin & Hve & Hb & Hab & Hv
        & Hlen & Hasc & Hall & _).
  exists s, g'.
  exists (if String.eqb n "midi" then note_to_freq a else a),
         (if String.eqb n "midi" then note_to_freq b else b).
  split; [exact Hs|]. split; [exact Hvin|].
  split; [rewrite Hve, Hv; reflexivity|].
  split; [exact Hlen|]. split; [exact Hasc|].
  unfold sweep_bounds. rewrite Hb.
  destruct (String.eqb n "midi"); split; auto.
Qed.

Lemma sample_sweep_in_bounds_witness :
  exists s g' lo hi,
    sample (G := counter_gen)
      (Spec "speed" [tup3 "factor" (VFloat 0.5) (VFloat 1.5)] []) 0%nat
      = Ok (s, g')
    /\ In (variable_spec s) [tup3 "factor" (VFloat 0.5) (VFloat 1.5)]
    /\ getitem (variable_spec s) 0 = Ok (variable s)
    /\ List.length (variable_values s) = 32%nat
    /\ ascending (variable_values s)
    /\ sweep_bounds (variable_spec s) = Some (lo, hi)
    /\ Forall (fun v => lo <= v <= hi) (variable_values s).
Proof.
  apply (sample_sweep_in_bounds counter_gen
           (Spec "speed" [tup3 "factor" (VFloat 0.5) (VFloat 1.5)] [])).
  - unfold transforms. simpl. do 18 right. left. reflexivity.
  - simpl. discriminate.
Defined.

(** C1 (the code departs from it on the ["pitch"] entry): that entry is in
    the catalog, sampling it raises [ValueError] on every run, and so does
    the processing of any file for which it is drawn; no sweep exists. *)
Theorem pitch_sweep_raises :
  nth_error transforms 16 = Some pitch_spec
  /\ (forall (G : RandomGen) g, sample pitch_spec g = Raise ValueError)
  /\ (forall (G : RandomGen) (C : Collaborators) f g fs,
        fst (randbelow (List.length transforms) g) = 16%nat ->
        transform_file f (g, fs) = Raise ValueError).
Proof.
  split; [reflexivity|]. split; [intros; apply sample_pitch_raises|].
  intros G C f g fs Hi. rewrite transform_file_eq, choice_eq, Hi.
  rewrite pitch_in_catalog, sample_pitch_raises. reflexivity.
Qed.

Lemma pitch_sweep_raises_witness :
  fst (randbelow (RandomGen := counter_gen) (List.length transforms) 16%nat)
    = 16%nat
  /\ transform_file (G := counter_gen) (C := example_collaborators)
       "data/FSD50K.eval_audio/1.wav" (16%nat, [])
     = Raise ValueError.
Proof.
  assert (H : fst (randbelow (RandomGen := counter_gen)
                     (List.length transforms) 16%nat) = 16%nat)
    by reflexivity.
  split; [exact H|].
  exact (proj2 (proj2 pitch_sweep_raises) counter_gen example_collaborators
           "data/FSD50K.eval_audio/1.wav" 16%nat [] H).
Defined.

(** C2 (the code departs from it on the ["pitch"] entry): the continuous
    list of that entry holds a bare string and a pair, none of them a
    [(paramName, low, high)] triple; every other entry has the declared
    shape. *)
Theorem pitch_entry_not_triples :
  In pitch_spec transforms
  /\ continuous pitch_spec
     = [EStr "n_semitones"; ETuple [VInt (-12); VInt 12]]
  /\ Forall (fun e => entry_bounds e = None) (continuous pitch_spec)
  /\ ~ well_formed pitch_spec
  /\ Forall (fun spec => spec = pitch_spec \/ well_formed spec) transforms.
Proof.
  split; [exact (nth_error_In _ _ pitch_in_catalog)|].
  split; [reflexivity|].
  split; [repeat constructor|].
  split.
  - intros (_ & H & _). inversion H as [|? ? H1 _]; subst. exact H1.
  - pose proof catalog_well_formed as H.
    rewrite Forall_forall in *. intros spec Hin.
    destruct (H spec Hin) as [Hn|Hw]; [left|now right].
    now apply pitch_only_malformed.
Qed.

(** ** One variable parameter per sweep *)

Lemma NoDup_map_injective {A B} (f : A -> B) l x y :
  NoDup (map f l) -> In x l -> In y l -> f x = f y -> x = y.
Proof.
  induction l as [|z l IH]; simpl; [tauto|].
  intros Hnd Hx Hy Hf. inversion Hnd as [|? ? Hz Hl]; subst.
  destruct Hx as [->|Hx], Hy as [->|Hy]; auto.
  - exfalso. apply Hz. rewrite Hf. now apply in_map.
  - exfalso. apply Hz. rewrite <- Hf. now apply in_map.
Qed.

Lemma NoDup_app_disjoint {A} (l1 l2 : list A) x :
  NoDup (l1 ++ l2) -> In x l1 -> In x l2 -> False.
Proof.
  induction l1 as [|z l1 IH]; simpl; [tauto|].
  intros Hnd [->|Hx] Hy; inversion Hnd as [|? ? Hz Hl]; subst.
  - apply Hz, in_or_app. now right.
  - now apply IH.
Qed.

Lemma continuous_names_in spec m :
  In m (continuous_names spec) <->
  exists e a b, In e (continuous spec) /\ entry_bounds e = Some (m, a, b).
Proof.
  unfold continuous_names. rewrite in_flat_map. split.
  - intros (e & He & Hm). destruct (entry_bounds e) as [[[n a] b]|] eqn:E.
    + destruct Hm as [<-|[]]. now exists e, a, b.
    + destruct Hm.
  - intros (e & a & b & He & Hb). exists e. split; [exact He|].
    rewrite Hb. now left.
Qed.

(** The keywords drawn once per file differ from the keyword of the
    variable. *)
Lemma fixed_labels_differ spec n k :
  NoDup (parameter_labels spec) ->
  In n (continuous_names spec) ->
  In k (fixed_labels spec n) ->
  py_eq (VStr (label n)) (VStr k) = false.
Proof.
  unfold parameter_labels, fixed_labels. intros Hnd Hn Hk.
  rewrite py_eq_str. apply String.eqb_neq. intros <-.
  apply in_app_or in Hk. destruct Hk as [Hk|Hk].
  - apply in_map_iff in Hk. destruct Hk as (m & Hlm & Hm).
    apply filter_In in Hm. destruct Hm as (Hm & Hne).
    apply negb_true_iff, String.eqb_neq in Hne. apply Hne.
    apply NoDup_app_remove_r in Hnd.
    eapply NoDup_map_injective; eauto.
  - eapply NoDup_app_disjoint; eauto. now apply in_map.
Qed.



(** ** The validator *)

Lemma truncate_min {A} (input target : list A) :
  truncate input target =
    (firstn (Nat.min (List.length input) (List.length target)) input,
     firstn (Nat.min (List.length input) (List.length target)) target).
Proof.
  unfold truncate.
  destruct (Nat.ltb_spec (List.length input) (List.length target)) as [H|H].
  - rewrite Nat.min_l by lia. now rewrite firstn_all.
  - rewrite Nat.min_r by lia. now rewrite firstn_all.
Qed.

(** C6: the two buffers of a distance are cut to the shorter of their
    lengths, from the front, nothing is added; every distance of the
    validator is computed on the buffers so cut; with lengths 100 and 80 it
    is computed on the first 80 frames of each. *)
Theorem truncate_to_shorter (G : RandomGen) (C : Collaborators) :
  (forall input target : list frame,
     let m := Nat.min (List.length input) (List.length target) in
     truncate input target = (firstn m input, firstn m target)
     /\ List.length (fst (truncate input target)) = m
     /\ List.length (snd (truncate input target)) = m)
  /\ (forall fs anchor p,
        let m := Nat.min (List.length (content fs p))
                   (List.length (content fs anchor)) in
        distance_from fs anchor p
        = dist (firstn m (content fs p)) (firstn m (content fs anchor)))
  /\ (forall fs anchor rest,
        (forall p, In p (anchor :: rest) -> exists a, read_file p fs = Ok a) ->
        validate (anchor :: rest) fs
        = Ok (spearmanr (map (distance_from fs anchor) rest)
                (seq 0 (List.length rest)), fs))
  /\ (forall fs anchor p,
        (List.length (content fs p) = 100%nat
         /\ List.length (content fs anchor) = 80%nat)
        \/ (List.length (content fs p) = 80%nat
            /\ List.length (content fs anchor) = 100%nat) ->
        distance_from fs anchor p
        = dist (firstn 80 (content fs p)) (firstn 80 (content fs anchor))).
Proof.
  split.
  { intros input target m. rewrite truncate_min. fold m. simpl.
    split; [reflexivity|].
    split; rewrite length_firstn; unfold m; lia. }
  assert (Hd : forall fs anchor p,
    distance_from fs anchor p
    = dist (firstn (Nat.min (List.length (content fs p))
                      (List.length (content fs anchor))) (content fs p))
        (firstn (Nat.min (List.length (content fs p))
                   (List.length (content fs anchor))) (content fs anchor))).
  { intros fs anchor p. unfold distance_from. now rewrite truncate_min. }
  split; [exact Hd|].
  split; [intros; now apply validate_spec|].
  intros fs anchor p H. rewrite Hd.
  destruct H as [[-> ->]|[-> ->]]; reflexivity.
Qed.

Lemma truncate_to_shorter_witness :
  let fs := [("anchor.ogg", repeat 0 80); ("p.ogg", repeat 1 100)] in
  ((List.length (content (C := example_collaborators) fs "p.ogg") = 100%nat
    /\ List.length (content (C := example_collaborators) fs "anchor.ogg")
       = 80%nat)
   \/ (List.length (content (C := example_collaborators) fs "p.ogg") = 80%nat
       /\ List.length (content (C := example_collaborators) fs "anchor.ogg")
          = 100%nat))
  /\ distance_from (C := example_collaborators) fs "anchor.ogg" "p.ogg"
     = dist (firstn 80 (content (C := example_collaborators) fs "p.ogg"))
         (firstn 80 (content (C := example_collaborators) fs "anchor.ogg")).
Proof.
  intros fs.
  assert (H : (List.length (content (C := example_collaborators) fs "p.ogg")
               = 100%nat
               /\ List.length
                    (content (C := example_collaborators) fs "anchor.ogg")
                  = 80%nat)
              \/ (List.length
                    (content (C := example_collaborators) fs "p.ogg")
                  = 80%nat
                  /\ List.length
                       (content (C := example_collaborators) fs "anchor.ogg")
                     = 100%nat)).
  { left. split; reflexivity. }
  split; [exact H|].
  exact (proj2 (proj2 (proj2
           (truncate_to_shorter counter_gen example_collaborators)))
           fs "anchor.ogg" "p.ogg" H).
Defined.

Section Validator.
Context {G : RandomGen} {C : Collaborators}.

(** A processed file, seen from its end: the sweep, the paths in sweep
    order, and the distances the loop of lines 178-185 has built. *)
Lemma transform_file_distances f g fs c g' fs' :
  transform_file f (g, fs) = Ok (c, (g', fs')) ->
  exists spec s n v0 vs,
    In spec transforms
    /\ variable s = VStr n
    /\ variable_values s = v0 :: vs
    /\ List.length vs = 31%nat
    /\ Forall (Rle v0) vs
    /\ (forall p,
          In p (map (outfile (name spec) f (label n)) (v0 :: vs)) ->
          exists a, read_file p fs' = Ok a)
    /\ distances (map (outfile (name spec) f (label n)) (v0 :: vs))
         (map (outfile (name spec) f (label n)) vs) [] fs'
       = Ok (map (distance_from fs' (outfile (name spec) f (label n) v0))
               (map (outfile (name spec) f (label n)) vs), fs')
    /\ c = spearmanr
             (map (distance_from fs' (outfile (name spec) f (label n) v0))
                (map (outfile (name spec) f (label n)) vs))
             (seq 0 31).
Proof.
  intros H. apply transform_file_inv in H.
  destruct H as (spec & g1 & s & outfiles & Hc & Hin & Hs & Hr & Hv).
  destruct (sample_catalog_inv _ _ _ _ Hin Hs) as (Hn & Hwf).
  destruct (sample_well_formed spec g1 Hwf)
    as (s0 & g0 & n & lo & hi & a & b & Hs0 & _ & _ & _ & _ & Hvar
        & Hlen & Hasc & _).
  rewrite Hs in Hs0. inversion Hs0; subst s0 g0. clear Hs0.
  rewrite Hvar, relabel_str in Hr.
  pose proof (render_readable _ _ _ _ _ _ _ _ Hr) as Hread.
  apply render_spec in Hr. destruct Hr as (Houts & _). simpl in Houts.
  destruct (variable_values s) as [|v0 vs] eqn:Evs; [discriminate|].
  unfold N_TRANSFORMS in Hlen. simpl in Hlen.
  unfold ascending in Hasc. apply StronglySorted_inv in Hasc.
  destruct Hasc as (_ & Hmin).
  subst outfiles. simpl map in *.
  rewrite validate_spec in Hv by exact Hread.
  inversion Hv as [Hc']. clear Hv.
  exists spec, s, n, v0, vs.
  split; [exact Hin|]. split; [exact Hvar|]. split; [exact Evs|].
  split; [lia|]. split; [exact Hmin|]. split; [exact Hread|].
  split.
  - rewrite distances_spec by exact Hread. reflexivity.
  - rewrite length_map. replace (List.length vs) with 31%nat by lia.
    reflexivity.
Qed.

End Validator.



(** C10: whenever the correlation step is reached, the distance sequence
    handed to the rank correlation has [N_TRANSFORMS - 1 = 31] entries and
    the index sequence paired with it has the same length, so both have at
    least two entries. *)
Theorem correlation_inputs_have_31_entries (G : RandomGen)
    (C : Collaborators) f g fs c g' fs' :
  transform_file f (g, fs) = Ok (c, (g', fs')) ->
  exists outfiles dists indices,
    distances outfiles (tl outfiles) [] fs' = Ok (dists, fs')
    /\ indices = seq 0 (List.length dists)
    /\ c = spearmanr dists indices
    /\ List.length outfiles = N_TRANSFORMS
    /\ List.length dists = (N_TRANSFORMS - 1)%nat
    /\ List.length dists = 31%nat
    /\ List.length indices = List.length dists
    /\ (2 <= List.length dists)%nat.
Proof.
  intros H. apply transform_file_distances in H.
  destruct H as (spec & s & n & v0 & vs & _ & _ & _ & Hlen & _ & _ & Hd & Hc).
  eexists (map _ (v0 :: vs)), _, _.
  split; [exact Hd|]. split; [reflexivity|].
  rewrite !length_map, length_seq, Hlen.
  split; [exact Hc|]. unfold N_TRANSFORMS. simpl. repeat split; lia.
Qed.

Lemma correlation_inputs_have_31_entries_witness :
  exists c g' fs' outfiles dists,
    transform_file (G := counter_gen) (C := example_collaborators)
      "data/FSD50K.eval_audio/1.wav" (0%nat, []) = Ok (c, (g', fs'))
    /\ distances (C := example_collaborators) outfiles (tl outfiles) [] fs'
       = Ok (dists, fs')
    /\ c = spearmanr (Collaborators := example_collaborators) dists
            (seq 0 (List.length dists))
    /\ List.length dists = 31%nat.
Proof.
  destruct (transform_file_returns (G := counter_gen)
              (C := example_collaborators)
              "data/FSD50K.eval_audio/1.wav" 0%nat [])
    as (c & g' & fs' & Hrun).
  { intros t kw. eexists. reflexivity. }
  { simpl. discriminate. }
  destruct (correlation_inputs_have_31_entries counter_gen
              example_collaborators _ _ _ _ _ _ Hrun)
    as (outfiles & dists & indices & Hd & -> & Hc & _ & _ & Hlen & _).
  exists c, g', fs', outfiles, dists.
  split; [exact Hrun|]. split; [exact Hd|]. split; [exact Hc|exact Hlen].
Defined.

(** ** Degenerate distance sequences *)

Lemma short_constant (l : list R) : (List.length l < 2)%nat -> constant l.
Proof.
  destruct l as [|x [|y l]]; simpl; intros H x' y' Hx Hy.
  - destruct Hx.
  - destruct Hx as [<-|[]], Hy as [<-|[]]. reflexivity.
  - lia.
Qed.

Lemma Rsum_all_equal l r :
  (forall x, In x l -> x = r) -> Rsum l = INR (List.length l) * r.
Proof.
  induction l as [|x l IH]; intros H.
  - simpl. lra.
  - change (Rsum (x :: l)) with (x + Rsum l).
    change (List.length (x :: l)) with (S (List.length l)).
    rewrite S_INR, IH by (intros; apply H; now right).
    rewrite (H x) by now left. lra.
Qed.

Lemma deviations_constant l : constant l -> Forall (eq 0) (deviations l).
Proof.
  intros Hc. unfold deviations. apply Forall_forall. intros d Hd.
  apply in_map_iff in Hd. destruct Hd as (x & <- & Hx).
  unfold mean. rewrite (Rsum_all_equal l x) by (intros; now apply Hc).
  assert (INR (List.length l) <> 0).
  { destruct l; [destruct Hx|]. apply not_0_INR. discriminate. }
  field. assumption.
Qed.

Lemma Rsum_squares_zero l : Forall (eq 0) l -> Rsum (map (fun d => d * d) l) = 0.
Proof.
  induction 1 as [|d l <- _ IH]; simpl; [reflexivity|]. rewrite IH. lra.
Qed.

Lemma ranks_constant l : constant l -> constant (ranks l).
Proof.
  intros Hc x y Hx Hy. unfold ranks in *.
  apply in_map_iff in Hx. destruct Hx as (x' & <- & Hx).
  apply in_map_iff in Hy. destruct Hy as (y' & <- & Hy).
  now rewrite (Hc x' y').
Qed.

(** The reference correlation is undefined on degenerate input. *)
Lemma reference_spearmanr_degenerate a b :
  degenerate a -> reference_spearmanr a b = NaN.
Proof.
  intros Hd.
  assert (Hc : constant a) by (destruct Hd; auto using short_constant).
  unfold reference_spearmanr, pearson.
  rewrite (Rsum_squares_zero _ (deviations_constant _ (ranks_constant _ Hc))).
  destruct (Req_EM_T _ 0) as [_|Hne]; [reflexivity|].
  exfalso. apply Hne. lra.
Qed.

(** C9: with a rank correlation that is undefined on degenerate input (its
    contract), a degenerate distance sequence makes the validator return
    [NaN]; nothing is raised, whatever the number of artifacts. *)
Theorem degenerate_distances_give_nan (G : RandomGen) (C : Collaborators)
    fs outfiles :
  (forall a b, degenerate a -> spearmanr a b = NaN) ->
  (forall p, In p outfiles -> exists a, read_file p fs = Ok a) ->
  exists dists,
    distances outfiles (tl outfiles) [] fs = Ok (dists, fs)
    /\ validate outfiles fs
       = Ok (spearmanr dists (seq 0 (List.length dists)), fs)
    /\ (degenerate dists -> validate outfiles fs = Ok (NaN, fs)).
Proof.
  intros Hcontract Hread.
  destruct outfiles as [|anchor rest].
  - exists []. split; [reflexivity|]. split; [reflexivity|].
    intros Hd. rewrite validate_empty.
    now rewrite (Hcontract [] [] Hd).
  - exists (map (distance_from fs anchor) rest).
    split; [now rewrite distances_spec|].
    rewrite validate_spec by exact Hread. rewrite length_map.
    split; [reflexivity|].
    intros Hd. now rewrite (Hcontract _ _ Hd).
Qed.

Lemma degenerate_distances_give_nan_witness :
  let fs := [("a.ogg", [1]); ("b.ogg", [1]); ("c.ogg", [1])] in
  let outfiles := ["a.ogg"; "b.ogg"; "c.ogg"] in
  (forall a b,
     degenerate a ->
     spearmanr (Collaborators := example_collaborators) a b = NaN)
  /\ (forall p, In p outfiles ->
        exists a, read_file (C := example_collaborators) p fs = Ok a)
  /\ exists dists,
       distances (C := example_collaborators) outfiles (tl outfiles) [] fs
         = Ok (dists, fs)
       /\ degenerate dists
       /\ validate (C := example_collaborators) outfiles fs = Ok (NaN, fs).
Proof.
  intros fs outfiles.
  assert (Hcontract : forall a b,
    degenerate a ->
    spearmanr (Collaborators := example_collaborators) a b = NaN)
    by exact reference_spearmanr_degenerate.
  assert (Hread : forall p, In p outfiles ->
    exists a, read_file (C := example_collaborators) p fs = Ok a).
  { intros p [<-|[<-|[<-|[]]]]; eexists; reflexivity. }
  split; [exact Hcontract|]. split; [exact Hread|].
  destruct (degenerate_distances_give_nan counter_gen example_collaborators
              fs outfiles Hcontract Hread) as (dists & Hd & _ & Hnan).
  exists dists. split; [exact Hd|].
  assert (Hdeg : degenerate dists).
  { unfold outfiles in Hd. simpl tl in Hd.
    rewrite distances_spec in Hd by exact Hread.
    inversion Hd as [Hdists]. right.
    intros x y [<-|[<-|[]]] [<-|[<-|[]]]; reflexivity. }
  split; [exact Hdeg|exact (Hnan Hdeg)].
Defined.

(** ** Rounding to three decimals *)

Lemma Int_part_bounds x : IZR (Int_part x) <= x < IZR (Int_part x) + 1.
Proof. destruct (base_Int_part x). lra. Qed.

Lemma Int_part_monotone x y : x <= y -> (Int_part x <= Int_part y)%Z.
Proof.
  intros Hxy. pose proof (Int_part_bounds x). pose proof (Int_part_bounds y).
  assert (IZR (Int_part x) < IZR (Int_part y + 1)) by (rewrite plus_IZR; lra).
  apply lt_IZR in H1. lia.
Qed.

Lemma Int_part_IZR k : Int_part (IZR k) = k.
Proof. symmetry. apply Int_part_spec. lra. Qed.

(** The result is the floor or the floor plus one. *)
Lemma round_half_even_cases x :
  (round_half_even x = Int_part x /\ x - IZR (Int_part x) <= 1 / 2)
  \/ (round_half_even x = (Int_part x + 1)%Z
      /\ 1 / 2 <= x - IZR (Int_part x)).
Proof.
  unfold round_half_even.
  destruct (Rlt_dec (x - IZR (Int_part x)) (1 / 2)); [left; split; [reflexivity|lra]|].
  destruct (Rlt_dec (1 / 2) (x - IZR (Int_part x)));
    [right; split; [reflexivity|lra]|].
  destruct (Z.even (Int_part x)); [left|right]; split; try reflexivity; lra.
Qed.

Lemma round_half_even_error x :
  Rabs (x - IZR (round_half_even x)) <= 1 / 2.
Proof.
  pose proof (Int_part_bounds x) as Hb.
  destruct (round_half_even_cases x) as [[-> H]|[-> H]].
  - rewrite Rabs_pos_eq; lra.
  - rewrite plus_IZR. rewrite Rabs_left1; lra.
Qed.

Lemma round_half_even_IZR k : round_half_even (IZR k) = k.
Proof.
  unfold round_half_even. rewrite Int_part_IZR.
  destruct (Rlt_dec (IZR k - IZR k) (1 / 2)); [reflexivity|lra].
Qed.

(** A number less than a half away from an integer rounds to it. *)
Lemma round_half_even_near x k :
  Rabs (x - IZR k) < 1 / 2 -> round_half_even x = k.
Proof.
  intros H. apply Rabs_def2 in H.
  pose proof (Int_part_bounds x) as Hb.
  destruct (round_half_even_cases x) as [[-> Hr]|[-> Hr]].
  - assert (IZR (Int_part x) < IZR (k + 1)) by (rewrite plus_IZR; lra).
    assert (IZR (k - 1) < IZR (Int_part x)) by (rewrite minus_IZR; lra).
    apply lt_IZR in H0, H1. lia.
  - assert (IZR (Int_part x) < IZR k) by lra.
    assert (IZR (k - 2) < IZR (Int_part x)) by (rewrite minus_IZR; lra).
    apply lt_IZR in H0, H1. lia.
Qed.

Lemma round_half_even_monotone x y :
  x <= y -> (round_half_even x <= round_half_even y)%Z.
Proof.
  intros Hxy. pose proof (Int_part_monotone x y Hxy) as Hfl.
  destruct (Z.eq_dec (Int_part x) (Int_part y)) as [Heq|Hne].
  - unfold round_half_even. rewrite <- Heq.
    destruct (Rlt_dec (x - IZR (Int_part x)) (1 / 2)) as [Hx|Hx].
    + destruct (Rlt_dec (y - IZR (Int_part x)) (1 / 2)); [lia|].
      destruct (Rlt_dec (1 / 2) (y - IZR (Int_part x))); [lia|].
      destruct (Z.even (Int_part x)); lia.
    + destruct (Rlt_dec (y - IZR (Int_part x)) (1 / 2)); [lra|].
      destruct (Rlt_dec (1 / 2) (x - IZR (Int_part x))) as [Hx'|Hx'].
      * destruct (Rlt_dec (1 / 2) (y - IZR (Int_part x))); [lia|lra].
      * destruct (Rlt_dec (1 / 2) (y - IZR (Int_part x))).
        -- destruct (Z.even (Int_part x)); lia.
        -- lia.
  - destruct (round_half_even_cases x) as [[-> _]|[-> _]],
             (round_half_even_cases y) as [[-> _]|[-> _]]; lia.
Qed.

Lemma round_half_even_nonneg x : 0 <= x -> (0 <= round_half_even x)%Z.
Proof.
  intros H. apply round_half_even_monotone in H.
  now rewrite round_half_even_IZR in H.
Qed.

(** Two numbers that round alike are at most one apart. *)
Lemma round_half_even_close x y :
  round_half_even x = round_half_even y -> Rabs (x - y) <= 1.
Proof.
  intros H. pose proof (round_half_even_error x) as Hx.
  pose proof (round_half_even_error y) as Hy. rewrite <- H in Hy.
  unfold Rabs in *.
  destruct (Rcase_abs (x - IZR (round_half_even x))),
           (Rcase_abs (y - IZR (round_half_even x))),
           (Rcase_abs (x - y)); lra.
Qed.

(** ** Strings of digits *)

Lemma append_length s t :
  String.length (s ++ t) = (String.length s + String.length t)%nat.
Proof. induction s as [|c s IH]; simpl; [reflexivity|now rewrite IH]. Qed.

Lemma append_assoc s t u : (s ++ t) ++ u = s ++ (t ++ u).
Proof. induction s as [|c s IH]; simpl; [reflexivity|now rewrite IH]. Qed.


Lemma append_inv_head s a b : s ++ a = s ++ b -> a = b.
Proof.
  induction s as [|c s IH]; simpl; intros H; [exact H|].
  inversion H. now apply IH.
Qed.

Lemma append_inv_tail t : forall a b, a ++ t = b ++ t -> a = b.
Proof.
  induction a as [|c a IH]; intros [|d b] H; simpl in H.
  - reflexivity.
  - exfalso. apply (f_equal String.length) in H. simpl in H.
    rewrite append_length in H. lia.
  - exfalso. apply (f_equal String.length) in H. simpl in H.
    rewrite append_length in H. lia.
  - inversion H; subst. f_equal. now apply IH.
Qed.






Lemma zeros_length k : String.length (zeros k) = k.
Proof. induction k; simpl; auto. Qed.






(** ** The formatted value *)


Lemma format_unfold v :
  format_010_3F v =
    (if Rlt_dec v 0 then "-" else EmptyString)
    ++ zeros (10 - String.length (if Rlt_dec v 0 then "-" else EmptyString)
              - String.length
                  (decimal (round_half_even (Rabs v * 1000) / 1000) ++ "."
                   ++ fixed_digits 3 (round_half_even (Rabs v * 1000) mod 1000)))
    ++ decimal (round_half_even (Rabs v * 1000) / 1000) ++ "."
    ++ fixed_digits 3 (round_half_even (Rabs v * 1000) mod 1000).
Proof. reflexivity. Qed.

Lemma thousandths_nonneg v : (0 <= round_half_even (Rabs v * 1000))%Z.
Proof.
  apply round_half_even_nonneg. pose proof (Rabs_pos v). nra.
Qed.






(** A value that is a whole number of thousandths, up to less than half of
    one, is formatted as that number. *)
Lemma format_eval v k :
  Rabs (Rabs v * 1000 - IZR k) < 1 / 2 ->
  format_010_3F v =
    (if Rlt_dec v 0 then "-" else EmptyString)
    ++ zeros (10 - String.length (if Rlt_dec v 0 then "-" else EmptyString)
              - String.length (decimal (k / 1000) ++ "."
                               ++ fixed_digits 3 (k mod 1000)))
    ++ decimal (k / 1000) ++ "." ++ fixed_digits 3 (k mod 1000).
Proof.
  intros H. rewrite format_unfold.
  now rewrite (round_half_even_near _ _ H).
Qed.

Lemma format_eval_nonneg v k s :
  0 <= v -> Rabs (v * 1000 - IZR k) < 1 / 2 ->
  zeros (10 - 0 - String.length (decimal (k / 1000) ++ "."
                                 ++ fixed_digits 3 (k mod 1000)))
    ++ decimal (k / 1000) ++ "." ++ fixed_digits 3 (k mod 1000) = s ->
  format_010_3F v = s.
Proof.
  intros Hv Hk <-.
  rewrite (format_eval v k) by (rewrite (Rabs_pos_eq v) by exact Hv; exact Hk).
  destruct (Rlt_dec v 0); [lra|reflexivity].
Qed.




Example format_a440 : format_010_3F 440 = "000440.000".
Proof.
  apply (format_eval_nonneg _ 440000); [lra| |reflexivity].
  rewrite Rabs_pos_eq; lra.
Qed.

Example format_half : format_010_3F 0.5 = "000000.500".
Proof.
  apply (format_eval_nonneg _ 500); [lra| |reflexivity].
  rewrite Rabs_pos_eq; lra.
Qed.

Example format_half_and_a_bit : format_010_3F 0.5001 = "000000.500".
Proof.
  apply (format_eval_nonneg _ 500); [lra| |reflexivity].
  rewrite Rabs_pos_eq; lra.
Qed.

Example format_wide : format_010_3F 1234567.891 = "1234567.891".
Proof.
  apply (format_eval_nonneg _ 1234567891); [lra| |reflexivity].
  rewrite Rabs_pos_eq; lra.
Qed.

(** ** Reading the formatted value back *)

Lemma parse_digits_append s : forall acc t,
  parse_digits acc (s ++ t) = parse_digits (parse_digits acc s) t.
Proof. induction s as [|c s IH]; intros acc t; simpl; auto. Qed.

Lemma is_digit_digit_char d :
  (0 <= d < 10)%Z ->
  is_digit (digit_char d) = true
  /\ (Z.of_N (N_of_ascii (digit_char d)) - 48)%Z = d.
Proof.
  intros Hd. unfold is_digit, digit_char.
  rewrite N_ascii_embedding by lia. split; [|lia].
  apply andb_true_iff. split; apply N.leb_le; lia.
Qed.

Lemma parse_digit acc d :
  (0 <= d < 10)%Z ->
  parse_digits acc (String (digit_char d) EmptyString) = (acc * 10 + d)%Z.
Proof.
  intros Hd. simpl. destruct (is_digit_digit_char d Hd) as [-> ->].
  reflexivity.
Qed.

Lemma parse_zeros k : parse_digits 0 (zeros k) = 0%Z.
Proof. induction k as [|k IH]; simpl; auto. Qed.

Lemma parse_fixed_digits w : forall acc n,
  (0 <= n < 10 ^ Z.of_nat w)%Z ->
  parse_digits acc (fixed_digits w n) = (acc * 10 ^ Z.of_nat w + n)%Z.
Proof.
  induction w as [|w IH]; intros acc n Hn.
  - simpl in *. lia.
  - rewrite Nat2Z.inj_succ, Z.pow_succ_r in * by lia.
    simpl fixed_digits. rewrite parse_digits_append.
    rewrite IH
      by (split; [apply Z.div_pos; lia|apply Z.div_lt_upper_bound; lia]).
    rewrite parse_digit by (apply Z.mod_pos_bound; lia).
    pose proof (Z.div_mod n 10 ltac:(lia)). lia.
Qed.

Lemma parse_digits_fuel fuel : forall n,
  (0 <= n < 2 ^ Z.of_nat fuel)%Z -> parse_digits 0 (digits_fuel fuel n) = n.
Proof.
  induction fuel as [|fuel IH]; intros n Hn.
  - simpl in *. lia.
  - rewrite Nat2Z.inj_succ, Z.pow_succ_r in Hn by lia.
    simpl digits_fuel. destruct (Z.ltb_spec n 10) as [Hlt|Hge].
    + rewrite parse_digit by lia. lia.
    + rewrite parse_digits_append, IH
        by (split; [apply Z.div_pos; lia|apply Z.div_lt_upper_bound; lia]).
      rewrite parse_digit by (apply Z.mod_pos_bound; lia).
      pose proof (Z.div_mod n 10 ltac:(lia)). lia.
Qed.

Lemma parse_decimal n : (0 <= n)%Z -> parse_digits 0 (decimal n) = n.
Proof.
  intros Hn. unfold decimal. apply parse_digits_fuel.
  split; [exact Hn|].
  rewrite Nat2Z.inj_succ, Z2Nat.id by apply Z.log2_nonneg.
  destruct (Z.eq_dec n 0) as [->|Hne]; [reflexivity|].
  apply Z.log2_spec. lia.
Qed.

(** The digits of a formatted value spell its thousandths. *)
Lemma thousandths_format v :
  thousandths (format_010_3F v) = round_half_even (Rabs v * 1000).
Proof.
  pose proof (thousandths_nonneg v) as Hm.
  unfold thousandths. rewrite format_unfold.
  set (m := round_half_even (Rabs v * 1000)) in *.
  assert (Hsign : parse_digits 0 (if Rlt_dec v 0 then "-" else EmptyString)
                  = 0%Z) by (destruct (Rlt_dec v 0); reflexivity).
  rewrite parse_digits_append, Hsign.
  rewrite parse_digits_append, parse_zeros.
  rewrite parse_digits_append, parse_decimal by (apply Z.div_pos; lia).
  rewrite parse_digits_append.
  change (parse_digits (m / 1000) ".") with (m / 1000)%Z.
  rewrite parse_fixed_digits by (apply Z.mod_pos_bound; lia).
  pose proof (Z.div_mod m 1000 ltac:(lia)). simpl Z.of_nat. lia.
Qed.

Lemma digits_fuel_head fuel : forall n t,
  (0 <= n)%Z -> is_negative (digits_fuel (S fuel) n ++ t) = false.
Proof.
  induction fuel as [|fuel IH]; intros n t Hn; simpl digits_fuel.
  - destruct (n <? 10)%Z eqn:E.
    + apply Z.ltb_lt in E. simpl. unfold digit_char.
      destruct (is_digit_digit_char n ltac:(lia)) as [Hd _].
      unfold digit_char in Hd.
      destruct (ascii_of_N (48 + Z.to_N n))
        as [[] [] [] [] [] [] [] []]; try reflexivity; discriminate Hd.
    + simpl.
      destruct (is_digit_digit_char (n mod 10)
                  (Z.mod_pos_bound n 10 ltac:(lia))) as [Hd _].
      destruct (digit_char (n mod 10))
        as [[] [] [] [] [] [] [] []]; try reflexivity; discriminate Hd.
  - destruct (n <? 10)%Z eqn:E.
    + apply Z.ltb_lt in E. simpl.
      destruct (is_digit_digit_char n ltac:(lia)) as [Hd _].
      destruct (digit_char n)
        as [[] [] [] [] [] [] [] []]; try reflexivity; discriminate Hd.
    + apply Z.ltb_ge in E. rewrite append_assoc. apply IH.
      apply Z.div_pos; lia.
Qed.

(** Only a negative value is formatted with a leading minus. *)
Lemma is_negative_format v :
  is_negative (format_010_3F v) = if Rlt_dec v 0 then true else false.
Proof.
  rewrite format_unfold. destruct (Rlt_dec v 0); [reflexivity|].
  change (EmptyString ++ ?s) with s.
  destruct (10 - _ - _)%nat as [|k]; [|reflexivity].
  change (zeros 0 ++ ?s) with s. unfold decimal.
  apply digits_fuel_head.
  apply Z.div_pos; [apply thousandths_nonneg|lia].
Qed.

(** Formatting forgets a value up to its sign and its thousandths. *)
Lemma format_eq_iff v1 v2 :
  format_010_3F v1 = format_010_3F v2 <->
  (v1 < 0 <-> v2 < 0)
  /\ round_half_even (Rabs v1 * 1000) = round_half_even (Rabs v2 * 1000).
Proof.
  split.
  - intros H. split.
    + pose proof (is_negative_format v1) as H1.
      pose proof (is_negative_format v2) as H2.
      rewrite H in H1. rewrite H1 in H2.
      destruct (Rlt_dec v1 0), (Rlt_dec v2 0); try discriminate; tauto.
    + now rewrite <- !thousandths_format, H.
  - intros [Hs Hm]. rewrite !format_unfold, Hm.
    destruct (Rlt_dec v1 0), (Rlt_dec v2 0); try reflexivity; tauto.
Qed.

Lemma format_eq_close v1 v2 :
  format_010_3F v1 = format_010_3F v2 -> Rabs (v1 - v2) <= 1 / 1000.
Proof.
  intros H. apply format_eq_iff in H. destruct H as [Hs Hm].
  apply round_half_even_close in Hm.
  unfold Rabs in *.
  destruct (Rcase_abs v1), (Rcase_abs v2), (Rcase_abs (v1 - v2)),
           (Rcase_abs (- v1 * 1000 - - v2 * 1000)),
           (Rcase_abs (v1 * 1000 - v2 * 1000)),
           (Rcase_abs (- v1 * 1000 - v2 * 1000)),
           (Rcase_abs (v1 * 1000 - - v2 * 1000)); try lra; tauto.
Qed.

(** ** Negative values *)







(** ** Output paths *)

Lemma path_join_relative a b :
  a <> EmptyString -> ends_with_slash a = false ->
  (forall b', b <> String "/" b') ->
  path_join a b = a ++ "/" ++ b.
Proof.
  intros Ha Hs Hb. unfold path_join. rewrite Hs.
  destruct a as [|c a]; [contradiction|].
  destruct b as [|d b]; [reflexivity|].
  destruct d as [[] [] [] [] [] [] [] []]; try reflexivity.
  now destruct (Hb b).
Qed.

Lemma outfile_pattern t f variable v :
  (forall t', t <> String "/" t') ->
  outfile t f variable v =
    "data/transforms/" ++ t ++ "-" ++ split_tail f ++ "-" ++ variable ++ "-"
      ++ format_010_3F v ++ ".ogg".
Proof.
  intros Ht. unfold outfile. rewrite path_join_relative.
  - reflexivity.
  - discriminate.
  - reflexivity.
  - intros b' Hb. destruct t as [|c t]; [discriminate|].
    simpl in Hb. inversion Hb; subst. now destruct (Ht t).
Qed.

(** Whatever the transform, the path depends on the value through its
    formatted form only. *)
Lemma outfile_shape t f variable :
  exists prefix,
    forall v, outfile t f variable v = prefix ++ format_010_3F v ++ ".ogg".
Proof.
  destruct t as [|c t].
  - exists ("data/transforms/" ++ "-" ++ split_tail f ++ "-" ++ variable ++ "-").
    intros v. rewrite outfile_pattern by discriminate.
    rewrite !append_assoc. reflexivity.
  - destruct (ascii_dec c "/") as [->|Hc].
    + exists (String "/" t ++ "-" ++ split_tail f ++ "-" ++ variable ++ "-").
      intros v. unfold outfile. rewrite !append_assoc. reflexivity.
    + exists ("data/transforms/" ++ String c t ++ "-" ++ split_tail f ++ "-"
              ++ variable ++ "-").
      intros v. rewrite outfile_pattern by congruence.
      rewrite !append_assoc. reflexivity.
Qed.

Lemma outfile_eq_iff t f variable v1 v2 :
  outfile t f variable v1 = outfile t f variable v2
  <-> format_010_3F v1 = format_010_3F v2.
Proof.
  destruct (outfile_shape t f variable) as [prefix Hp]. rewrite !Hp.
  split; [|now intros ->].
  intros H. apply append_inv_head in H. now apply append_inv_tail in H.
Qed.


Section Paths.
Context {G : RandomGen} {C : Collaborators}.


End Paths.




(** C8, as the code has it: for one transform, source file and variable,
    two values get the same path exactly when they are formatted alike,
    that is when they have the same sign and the same rounded thousandths;
    values more than 0.001 apart get different paths. *)
Theorem outfile_collides_iff_same_format t f variable v1 v2 :
  (outfile t f variable v1 = outfile t f variable v2
   <-> format_010_3F v1 = format_010_3F v2)
  /\ (format_010_3F v1 = format_010_3F v2
      <-> (v1 < 0 <-> v2 < 0)
          /\ round_half_even (Rabs v1 * 1000)
             = round_half_even (Rabs v2 * 1000))
  /\ (1 / 1000 < Rabs (v1 - v2) ->
      outfile t f variable v1 <> outfile t f variable v2).
Proof.
  split; [apply outfile_eq_iff|]. split; [apply format_eq_iff|].
  intros Hfar Heq. apply outfile_eq_iff, format_eq_close in Heq. lra.
Qed.

Lemma outfile_collides_iff_same_format_witness :
  1 / 1000 < Rabs (0.5 - 0.6)
  /\ outfile "speed" "data/FSD50K.eval_audio/1.wav" "factor" 0.5
     <> outfile "speed" "data/FSD50K.eval_audio/1.wav" "factor" 0.6.
Proof.
  assert (H : 1 / 1000 < Rabs (0.5 - 0.6)).
  { rewrite Rabs_left; lra. }
  split; [exact H|].
  exact (proj2 (proj2 (outfile_collides_iff_same_format "speed"
           "data/FSD50K.eval_audio/1.wav" "factor" 0.5 0.6)) H).
Defined.

(** C8 as stated fails: two different sweep values of ["speed"] with one
    path. *)
Lemma outfile_collision :
  0.5 <> 0.5001
  /\ outfile "speed" "data/FSD50K.eval_audio/1.wav" "factor" 0.5
     = outfile "speed" "data/FSD50K.eval_audio/1.wav" "factor" 0.5001.
Proof.
  split; [lra|]. apply outfile_eq_iff.
  now rewrite format_half, format_half_and_a_bit.
Qed.

(** * Further properties of the code *)

(** ** The equal-tempered scale *)






(** ** One draw *)

Section ChooseValue.
Context {G : RandomGen}.




End ChooseValue.


(** ** Sampling: errors *)

Section SampleErrors.
Context {G : RandomGen}.

Lemma sample_categorical_empty l :
  Exists (fun c => snd c = []) l ->
  forall params g, sample_categorical l params g = Raise IndexError.
Proof.
  induction l as [|[c vals] l IH]; intros Hex params g.
  - inversion Hex.
  - simpl. destruct vals as [|x vals].
    + reflexivity.
    + destruct (choice_ok (x :: vals) g) as (y & g1 & Hy & _);
        [discriminate|].
      rewrite (bind_step _ _ _ _ _ Hy). apply IH.
      inversion Hex as [? ? H|? ? H]; subst; [discriminate H|exact H].
Qed.

(** X3, lines 142 and 150: an entry without continuous parameters, or with a
    categorical parameter without values, makes [random.choice] raise
    [IndexError]. *)
Theorem sample_empty_choice_raises spec g :
  (continuous spec = [] -> sample spec g = Raise IndexError)
  /\ (continuous spec <> [] ->
      Forall well_formed_entry (continuous spec) ->
      Exists (fun c => snd c = []) (categorical spec) ->
      sample spec g = Raise IndexError).
Proof.
  split.
  - intros H. unfold sample. rewrite H. reflexivity.
  - intros Hne Hwf Hex. unfold sample.
    destruct (choice_ok (continuous spec) g Hne) as (e & g1 & He & Hin).
    rewrite (bind_step _ _ _ _ _ He).
    rewrite Forall_forall in Hwf.
    destruct (well_formed_entry_inv e (Hwf e Hin))
      as (n & lo & hi & a & b & -> & _).
    unfold bind at 1. simpl lift.
    destruct (sample_continuous_ok (VStr n) (continuous spec)) with
      (params := @nil (value * value)) (g := g1)
      as (p1 & g2 & Hc1 & _).
    { now apply Forall_forall. }
    { constructor. }
    rewrite (bind_step _ _ _ _ _ Hc1).
    apply bind_raise. now apply sample_categorical_empty.
Qed.

End SampleErrors.

Lemma sample_empty_choice_raises_witness :
  continuous (Spec "echo" [] []) = []
  /\ sample (G := counter_gen) (Spec "echo" [] []) 0%nat = Raise IndexError
  /\ continuous (Spec "gain" [tup3 "gain_db" (VInt (-20)) (VInt 20)]
                   [("balance", [])]) <> []
  /\ sample (G := counter_gen)
       (Spec "gain" [tup3 "gain_db" (VInt (-20)) (VInt 20)]
          [("balance", [])]) 0%nat = Raise IndexError.
Proof.
  assert (H1 : continuous (Spec "echo" [] []) = []) by reflexivity.
  assert (H2 : continuous (Spec "gain" [tup3 "gain_db" (VInt (-20)) (VInt 20)]
                             [("balance", [])]) <> []) by discriminate.
  split; [exact H1|].
  split; [exact (proj1 (sample_empty_choice_raises (G := counter_gen)
                          (Spec "echo" [] []) 0%nat) H1)|].
  split; [exact H2|].
  apply (proj2 (sample_empty_choice_raises (G := counter_gen)
                  (Spec "gain" [tup3 "gain_db" (VInt (-20)) (VInt 20)]
                     [("balance", [])]) 0%nat) H2).
  - constructor; [|constructor]. unfold well_formed_entry. simpl. lra.
  - constructor. reflexivity.
Defined.

(** ** Sampling: the parameters drawn once *)

Lemma dict_set_fresh k v d :
  dict_get k d = None -> dict_set k v d = (d ++ [(k, v)])%list.
Proof.
  induction d as [|[k' v'] d IH]; simpl; [reflexivity|].
  destruct (py_eq k' k); [discriminate|].
  intros H. now rewrite IH.
Qed.

Lemma dict_get_keywords_none k l :
  ~ In k (map fst l) -> dict_get (VStr k) (keywords l) = None.
Proof.
  induction l as [|[k' v'] l IH]; simpl; [reflexivity|].
  intros H. rewrite py_eq_str.
  destruct (String.eqb_spec k' k) as [->|Hne]; [tauto|].
  apply IH. tauto.
Qed.

Lemma dict_get_keywords k v l :
  NoDup (map fst l) -> In (k, v) l -> dict_get (VStr k) (keywords l) = Some v.
Proof.
  induction l as [|[k' v'] l IH]; simpl; [tauto|].
  intros Hnd Hin. inversion Hnd as [|? ? Hk' Hl]; subst.
  rewrite py_eq_str. destruct Hin as [Heq|Hin].
  - inversion Heq; subst. now rewrite String.eqb_refl.
  - destruct (String.eqb_spec k' k) as [->|Hne].
    + exfalso. apply Hk'. change k with (fst (k, v)). now apply in_map.
    + now apply IH.
Qed.

Lemma keywords_set k v l :
  ~ In k (map fst l) ->
  dict_set (VStr k) v (keywords l) = keywords (l ++ [(k, v)]).
Proof.
  intros H. rewrite dict_set_fresh by now apply dict_get_keywords_none.
  unfold keywords. now rewrite map_app.
Qed.

Section SampleTemplate.
Context {G : RandomGen}.

(** The names of the entries of a list, as [continuous_names] has them. *)
Let names_of (l : list entry) : list string :=
  flat_map (fun e => match entry_bounds e with
                     | Some (n, _, _) => [n]
                     | None => []
                     end) l.

Lemma sample_continuous_keywords n l :
  Forall well_formed_entry l ->
  forall acc g,
  NoDup (map fst acc
         ++ map label (filter (fun m => negb (String.eqb m n)) (names_of l))) ->
  exists added g',
    sample_continuous (VStr n) l (keywords acc) g
      = Ok (keywords (acc ++ added), g')
    /\ map fst added
       = map label (filter (fun m => negb (String.eqb m n)) (names_of l))
    /\ (forall e m a b, In e l -> entry_bounds e = Some (m, a, b) ->
          String.eqb m n = false ->
          exists x, In (label m, VFloat x) added /\ within m a b x).
Proof.
  induction 1 as [|e l He Hl IH]; intros acc g Hnd.
  - exists [], g. simpl. rewrite app_nil_r.
    split; [reflexivity|]. split; [reflexivity|]. intros ? ? ? ? [].
  - destruct (well_formed_entry_inv e He)
      as (m & lo & hi & a & b & -> & Hb & Ha & Hb' & Hab).
    rewrite sample_continuous_tuple, py_eq_str.
    unfold names_of in Hnd. simpl flat_map in Hnd. rewrite Ha, Hb' in Hnd.
    simpl app in Hnd. simpl filter in Hnd.
    unfold names_of. simpl flat_map. rewrite Ha, Hb'.
    simpl app. simpl filter.
    fold (names_of l) in *.
    destruct (String.eqb m n) eqn:Emn; simpl negb in *; cbv iota in *.
    + destruct (IH acc g Hnd) as (added & g' & Hrun & Hkeys & Hin).
      exists added, g'. split; [exact Hrun|]. split; [exact Hkeys|].
      intros e' m' a' b' [<-|Hin'] Hb0 Hne.
      * simpl in Hb0. rewrite Ha, Hb' in Hb0. inversion Hb0; subst.
        congruence.
      * eapply Hin; eauto.
    + destruct (choose_value_ok m lo hi a b g Ha Hb' Hab)
        as (v & g1 & Hc & Hv).
      rewrite Hc.
      assert (Hfresh : ~ In (label m) (map fst acc)).
      { intros Hin. simpl map in Hnd.
        eapply NoDup_app_disjoint; [exact Hnd|exact Hin|now left]. }
      rewrite keywords_set by exact Hfresh.
      destruct (IH (acc ++ [(label m, VFloat v)])%list g1)
        as (added & g' & Hrun & Hkeys & Hin).
      { rewrite map_app. simpl map in *. rewrite <- app_assoc. exact Hnd. }
      exists ((label m, VFloat v) :: added), g'.
      split; [rewrite Hrun, <- app_assoc; reflexivity|].
      split; [simpl; now rewrite Hkeys|].
      intros e' m' a' b' [<-|Hin'] Hb0 Hne.
      * simpl in Hb0. rewrite Ha, Hb' in Hb0. inversion Hb0; subst.
        exists v. split; [now left|exact Hv].
      * destruct (Hin e' m' a' b' Hin' Hb0 Hne) as (x & Hx & Hw).
        exists x. split; [now right|exact Hw].
Qed.

Lemma sample_categorical_keywords l :
  Forall (fun c => snd c <> []) l ->
  forall acc g,
  NoDup (map fst acc ++ map fst l) ->
  exists added g',
    sample_categorical l (keywords acc) g = Ok (keywords (acc ++ added), g')
    /\ map fst added = map fst l
    /\ (forall c, In c l -> exists x, In (fst c, x) added /\ In x (snd c)).
Proof.
  induction 1 as [|[c vals] l Hc Hl IH]; intros acc g Hnd.
  - exists [], g. simpl. rewrite app_nil_r.
    split; [reflexivity|]. split; [reflexivity|]. intros ? [].
  - simpl in Hc. simpl sample_categorical.
    destruct (choice_ok vals g Hc) as (x & g1 & Hx & Hxin).
    rewrite (bind_step _ _ _ _ _ Hx).
    assert (Hfresh : ~ In c (map fst acc)).
    { intros Hin. eapply NoDup_app_disjoint; [exact Hnd|exact Hin|now left]. }
    rewrite keywords_set by exact Hfresh.
    destruct (IH (acc ++ [(c, x)])%list g1)
      as (added & g' & Hrun & Hkeys & Hin).
    { rewrite map_app. simpl map in *. rewrite <- app_assoc. exact Hnd. }
    exists ((c, x) :: added), g'.
    split; [rewrite Hrun, <- app_assoc; reflexivity|].
    split; [simpl; now rewrite Hkeys|].
    intros c' [<-|Hin'].
    + exists x. split; [now left|exact Hxin].
    + destruct (Hin c' Hin') as (y & Hy & Hyin).
      exists y. split; [now right|exact Hyin].
Qed.

End SampleTemplate.

Lemma NoDup_map_filter_app {A B} (f : A -> B) (p : A -> bool) l r :
  NoDup (map f l ++ r) -> NoDup (map f (filter p l) ++ r).
Proof.
  induction l as [|x l IH]; simpl; [auto|].
  intros H. inversion H as [|? ? Hx Hl]; subst.
  destruct (p x); [|now apply IH].
  simpl. constructor; [|now apply IH].
  intros Hin. apply Hx. apply in_app_or in Hin. apply in_or_app.
  destruct Hin as [Hin|Hin]; [left|now right].
  apply in_map_iff in Hin. destruct Hin as (y & <- & Hy).
  apply filter_In in Hy. apply in_map. tauto.
Qed.

(** X4, lines 141-150, for an entry of the catalog: the template of a file has
    exactly one keyword for each continuous parameter other than the
    variable and one for each categorical parameter, in the order of the
    catalog, and none for the variable; a continuous value lies within the
    bounds of its parameter (converted for ["midi"]) and a categorical value
    is one of the allowed values. *)
Theorem sample_template_in_bounds (G : RandomGen) spec g s g' :
  In spec transforms -> sample spec g = Ok (s, g') ->
  exists n template,
    variable s = VStr n
    /\ In n (continuous_names spec)
    /\ params s = keywords template
    /\ map fst template = fixed_labels spec n
    /\ dict_get (VStr (label n)) (params s) = None
    /\ (forall e m a b,
          In e (continuous spec) -> entry_bounds e = Some (m, a, b) ->
          m <> n ->
          exists x, dict_get (VStr (label m)) (params s) = Some (VFloat x)
                    /\ within m a b x)
    /\ (forall c vals,
          In (c, vals) (categorical spec) ->
          exists x, dict_get (VStr c) (params s) = Some x /\ In x vals).
Proof.
  intros Hin Hs.
  destruct (sample_catalog_inv _ _ _ _ Hin Hs) as (_ & Hne & Hcont & Hcat).
  assert (Hnd : NoDup (parameter_labels spec)).
  { pose proof catalog_labels_distinct as H.
    rewrite Forall_forall in H. now apply H. }
  unfold sample in Hs.
  apply bind_ok in Hs. destruct Hs as (e & g1 & He & Hs).
  apply choice_inv in He.
  rewrite Forall_forall in Hcont.
  destruct (well_formed_entry_inv e (Hcont e He))
    as (n & lo & hi & a & b & -> & Hb & _).
  apply bind_ok in Hs. destruct Hs as (var & g1' & Hvar & Hs).
  simpl in Hvar. unfold lift in Hvar. inversion Hvar; subst var g1'.
  clear Hvar.
  apply bind_ok in Hs. destruct Hs as (p1 & g2 & Hc1 & Hs).
  apply bind_ok in Hs. destruct Hs as (p2 & g3 & Hc2 & Hs).
  apply bind_ok in Hs. destruct Hs as (vs & g4 & _ & Hs).
  unfold ret in Hs. inversion Hs; subst s g'. clear Hs.
  cbn [variable params].
  unfold parameter_labels, continuous_names in Hnd.
  destruct (sample_continuous_keywords n (continuous spec)) with
    (acc := @nil (string * value)) (g := g1)
    as (added1 & g2' & Hrun1 & Hkeys1 & Hin1).
  { now apply Forall_forall. }
  { simpl. eapply NoDup_app_remove_r.
    apply NoDup_map_filter_app. exact Hnd. }
  change (keywords []) with (@nil (value * value)) in Hrun1.
  rewrite Hc1 in Hrun1. inversion Hrun1; subst p1 g2'. clear Hrun1.
  simpl app in Hc2.
  destruct (sample_categorical_keywords (categorical spec) Hcat added1 g2)
    as (added2 & g3' & Hrun2 & Hkeys2 & Hin2).
  { rewrite Hkeys1. now apply NoDup_map_filter_app. }
  rewrite Hc2 in Hrun2. inversion Hrun2; subst p2 g3'. clear Hrun2.
  assert (Hkeys : map fst (added1 ++ added2)%list = fixed_labels spec n).
  { rewrite map_app, Hkeys1, Hkeys2. reflexivity. }
  assert (Hnd' : NoDup (map fst (added1 ++ added2)%list)).
  { rewrite Hkeys. unfold fixed_labels, continuous_names.
    now apply NoDup_map_filter_app. }
  exists n, (added1 ++ added2)%list.
  assert (Hnin : In n (continuous_names spec)).
  { apply continuous_names_in. now exists (ETuple [VStr n; lo; hi]), a, b. }
  split; [reflexivity|]. split; [exact Hnin|].
  split; [reflexivity|]. split; [exact Hkeys|]. split.
  { apply dict_get_keywords_none. rewrite Hkeys. intros Hk.
    assert (Hnd0 : NoDup (parameter_labels spec)).
    { pose proof catalog_labels_distinct as H.
      rewrite Forall_forall in H. now apply H. }
    pose proof (fixed_labels_differ spec n (label n) Hnd0 Hnin Hk) as Hd.
    rewrite py_eq_refl in Hd. discriminate. }
  split.
  - intros e m a' b' Hine Hbe Hmn.
    destruct (Hin1 e m a' b' Hine Hbe) as (x & Hx & Hw).
    { now apply String.eqb_neq. }
    exists x. split; [|exact Hw].
    apply dict_get_keywords; [exact Hnd'|]. apply in_or_app. now left.
  - intros c vals Hc. destruct (Hin2 (c, vals) Hc) as (x & Hx & Hxin).
    exists x. split; [|exact Hxin].
    apply dict_get_keywords; [exact Hnd'|]. apply in_or_app. now right.
Qed.

Lemma sample_template_in_bounds_witness :
  In flanger_spec transforms
  /\ exists s g' n template,
       sample (G := counter_gen) flanger_spec 0%nat = Ok (s, g')
       /\ variable s = VStr n
       /\ params s = keywords template
       /\ map fst template = fixed_labels flanger_spec n.
Proof.
  assert (Hin : In flanger_spec transforms).
  { unfold transforms. simpl. do 10 right. left. reflexivity. }
  split; [exact Hin|].
  destruct (sample_well_formed (G := counter_gen) flanger_spec 0%nat)
    as (s & g' & _ & _ & _ & _ & _ & Hs & _).
  { apply in_catalog_well_formed; [exact Hin|simpl; discriminate]. }
  destruct (sample_template_in_bounds counter_gen flanger_spec 0%nat s g'
              Hin Hs) as (n & template & Hv & _ & Hp & Hk & _).
  exists s, g', n, template. auto.
Defined.

(** ** Rendering: what is written, and when it stops *)

Section RenderFacts.
Context {G : RandomGen} {C : Collaborators}.

Lemma read_file_skip p (w : files) fs :
  ~ In p (map fst w) -> read_file p (w ++ fs)%list = read_file p fs.
Proof.
  induction w as [|[q a] w IH]; simpl; [reflexivity|].
  intros H. destruct (String.eqb_spec q p) as [->|Hne]; [tauto|].
  apply IH. tauto.
Qed.

Lemma render_step t f l params v values outs fs :
  render t f (VStr l) params (v :: values) outs fs =
    match rendered t f l params v with
    | Ok a =>
        render t f (VStr l) params values (outs ++ [outfile t f l v])%list
          ((outfile t f l v, a) :: fs)
    | Raise e => Raise e
    end.
Proof.
  simpl. unfold bind, build_file, rendered.
  destruct (kwargs _) as [kw|]; [|reflexivity].
  destruct (sox_build t kw f); reflexivity.
Qed.

Lemma render_written values : forall t f l params outs fs outs' fs',
  render t f (VStr l) params values outs fs = Ok (outs', fs') ->
  exists written,
    fs' = (rev written ++ fs)%list
    /\ Forall2 (fun v w => fst w = outfile t f l v
                           /\ rendered t f l params v = Ok (snd w))
         values written.
Proof.
  induction values as [|v values IH]; intros t f l params outs fs outs' fs' H.
  - simpl in H. unfold ret in H. inversion H; subst.
    exists []. split; [reflexivity|constructor].
  - rewrite render_step in H.
    destruct (rendered t f l params v) as [a|] eqn:Ea; [|discriminate].
    apply IH in H. destruct H as (written & -> & Hall).
    exists ((outfile t f l v, a) :: written). split.
    + simpl. now rewrite <- app_assoc.
    + constructor; [|exact Hall]. now split.
Qed.

(** X6, lines 162-175: after a completed rendering loop the file at the path of
    a sweep value holds the render of the last value of the sweep that has
    this path, and every file at another path is as it was before. *)
Theorem render_last_write_wins t f l params values fs outfiles fs' :
  render t f (VStr l) params values [] fs = Ok (outfiles, fs') ->
  (forall pre v post,
     values = (pre ++ v :: post)%list ->
     (forall v', In v' post -> outfile t f l v' <> outfile t f l v) ->
     exists a,
       rendered t f l params v = Ok a
       /\ read_file (outfile t f l v) fs' = Ok a)
  /\ (forall p, ~ In p outfiles -> read_file p fs' = read_file p fs).
Proof.
  intros H.
  pose proof (render_spec _ _ _ _ _ _ _ _ _ H) as (Houts & _).
  apply render_written in H. destruct H as (written & -> & Hall).
  simpl in Houts. subst outfiles.
  assert (Hpaths : forall vs ws,
    Forall2 (fun v w => fst w = outfile t f l v
                        /\ rendered t f l params v = Ok (snd w)) vs ws ->
    map fst ws = map (outfile t f l) vs).
  { induction 1 as [|v w vs ws [Hw _] _ IH]; simpl; [reflexivity|].
    now rewrite Hw, IH. }
  split.
  - intros pre v post -> Hlast.
    apply Forall2_app_inv_l in Hall.
    destruct Hall as (wpre & wrest & Hpre & Hrest & ->).
    inversion Hrest as [|? w ? wpost [Hw Hr] Hpost]; subst.
    exists (snd w). split; [exact Hr|].
    rewrite rev_app_distr. simpl rev. rewrite <- !app_assoc.
    rewrite read_file_skip.
    + simpl. rewrite <- Hw. destruct w as [q a]. simpl.
      now rewrite String.eqb_refl.
    + rewrite map_rev, <- in_rev, (Hpaths _ _ Hpost).
      intros Hin. apply in_map_iff in Hin. destruct Hin as (v' & Hv' & Hin).
      now apply (Hlast v' Hin).
  - intros p Hp. apply read_file_skip.
    now rewrite map_rev, <- in_rev, (Hpaths _ _ Hall).
Qed.

(** X7, lines 170-175: the loop raises exactly when the engine refuses the
    assignment of some sweep value and has rendered all values before it;
    the exception is that of this first refusal.  Otherwise it returns. *)
Theorem render_stops_at_first_failure t f l params values outs fs :
  (forall e,
     render t f (VStr l) params values outs fs = Raise e <->
     exists pre v post,
       values = (pre ++ v :: post)%list
       /\ Forall (fun v' => exists a, rendered t f l params v' = Ok a) pre
       /\ rendered t f l params v = Raise e)
  /\ ((exists outs' fs',
         render t f (VStr l) params values outs fs = Ok (outs', fs')) <->
      Forall (fun v' => exists a, rendered t f l params v' = Ok a) values).
Proof.
  revert outs fs. induction values as [|v values IH]; intros outs fs.
  - split.
    + intros e. split; [discriminate|].
      intros (pre & v & post & H & _). now destruct pre.
    + split; [constructor|]. intros _. now exists outs, fs.
  - rewrite render_step.
    destruct (rendered t f l params v) as [a|e0] eqn:Ea.
    + destruct (IH (outs ++ [outfile t f l v])%list
                   ((outfile t f l v, a) :: fs)) as [IHr IHo].
      split.
      * intros e. rewrite IHr. split.
        -- intros (pre & v' & post & -> & Hpre & Hv').
           exists (v :: pre), v', post. split; [reflexivity|].
           split; [constructor; [now exists a|exact Hpre]|exact Hv'].
        -- intros (pre & v' & post & Hsplit & Hpre & Hv').
           destruct pre as [|v0 pre]; simpl in Hsplit;
             inversion Hsplit; subst; [congruence|].
           exists pre, v', post. split; [reflexivity|].
           split; [now inversion Hpre|exact Hv'].
      * rewrite IHo. split.
        -- intros H. constructor; [now exists a|exact H].
        -- intros H. now inversion H.
    + split.
      * intros e. split.
        -- intros H. inversion H; subst.
           exists [], v, values. split; [reflexivity|].
           split; [constructor|exact Ea].
        -- intros (pre & v' & post & Hsplit & Hpre & Hv').
           destruct pre as [|v0 pre]; simpl in Hsplit;
             inversion Hsplit; subst; [congruence|].
           inversion Hpre as [|? ? [a Ha] _]; subst. congruence.
      * split.
        -- intros (outs' & fs' & H). discriminate.
        -- intros H. inversion H as [|? ? [a Ha] _]; subst. congruence.
Qed.

End RenderFacts.

Lemma render_last_write_wins_witness :
  exists outfiles fs',
    render (C := example_collaborators) "speed" "data/FSD50K.eval_audio/1.wav"
      (VStr "factor") [] [0.5; 0.5001; 0.75] [] [] = Ok (outfiles, fs')
    /\ [0.5; 0.5001; 0.75] = ([0.5] ++ 0.5001 :: [0.75])%list
    /\ (forall v', In v' [0.75] ->
          outfile "speed" "data/FSD50K.eval_audio/1.wav" "factor" v'
          <> outfile "speed" "data/FSD50K.eval_audio/1.wav" "factor" 0.5001)
    /\ exists a,
         rendered (C := example_collaborators) "speed"
           "data/FSD50K.eval_audio/1.wav" "factor" [] 0.5001 = Ok a
         /\ read_file (C := example_collaborators)
              (outfile "speed" "data/FSD50K.eval_audio/1.wav" "factor" 0.5)
              fs' = Ok a.
Proof.
  destruct (render_returns (C := example_collaborators) "speed"
              "data/FSD50K.eval_audio/1.wav" "factor" [])
    with (values := [0.5; 0.5001; 0.75]) (outs := @nil string)
         (fs := @nil (string * list R)) as (outfiles & fs' & Hrun).
  { constructor. }
  { intros kw. eexists. reflexivity. }
  exists outfiles, fs'. split; [exact Hrun|].
  assert (Hsplit : [0.5; 0.5001; 0.75] = ([0.5] ++ 0.5001 :: [0.75])%list)
    by reflexivity.
  assert (Hlast : forall v', In v' [0.75] ->
    outfile "speed" "data/FSD50K.eval_audio/1.wav" "factor" v'
    <> outfile "speed" "data/FSD50K.eval_audio/1.wav" "factor" 0.5001).
  { intros v' [<-|[]] Heq. apply outfile_eq_iff, format_eq_close in Heq.
    rewrite Rabs_pos_eq in Heq; lra. }
  split; [exact Hsplit|]. split; [exact Hlast|].
  destruct (proj1 (render_last_write_wins (C := example_collaborators)
                     _ _ _ _ _ _ _ _ Hrun) [0.5] 0.5001 [0.75] Hsplit Hlast)
    as (a & Ha & Hread).
  exists a. split; [exact Ha|].
  replace (outfile "speed" "data/FSD50K.eval_audio/1.wav" "factor" 0.5)
    with (outfile "speed" "data/FSD50K.eval_audio/1.wav" "factor" 0.5001);
    [exact Hread|].
  apply outfile_eq_iff. now rewrite format_half, format_half_and_a_bit.
Defined.

(** ** The validator: missing files, few files, one file twice *)

Section ValidateFacts.
Context {G : RandomGen} {C : Collaborators}.







End ValidateFacts.



(** ** The run over the corpus *)

Section Driver.
Context {G : RandomGen} {C : Collaborators}.

Lemma driver_cons f inputs st :
  driver (f :: inputs) st =
    match transform_file f st with
    | Ok (c, st1) =>
        match driver inputs st1 with
        | Ok (cs, st2) => Ok (c :: cs, st2)
        | Raise e => Raise e
        end
    | Raise e => Raise e
    end.
Proof.
  simpl. unfold bind, ret.
  destruct (transform_file f st) as [[c st1]|]; [|reflexivity].
  destruct (driver inputs st1) as [[cs st2]|]; reflexivity.
Qed.

Lemma driver_app l1 : forall l2 st,
  driver (l1 ++ l2)%list st =
    match driver l1 st with
    | Ok (cs1, st1) =>
        match driver l2 st1 with
        | Ok (cs2, st2) => Ok ((cs1 ++ cs2)%list, st2)
        | Raise e => Raise e
        end
    | Raise e => Raise e
    end.
Proof.
  induction l1 as [|f l1 IH]; intros l2 st.
  - simpl. unfold ret. now destruct (driver l2 st) as [[cs2 st2]|].
  - change ((f :: l1) ++ l2)%list with (f :: (l1 ++ l2))%list.
    rewrite !driver_cons.
    destruct (transform_file f st) as [[c st1]|]; [|reflexivity].
    rewrite IH.
    destruct (driver l1 st1) as [[cs1 st2]|]; [|reflexivity].
    destruct (driver l2 st2) as [[cs2 st3]|]; reflexivity.
Qed.

Lemma transform_file_pitch f g fs :
  fst (randbelow (List.length transforms) g) = 16%nat ->
  transform_file f (g, fs) = Raise ValueError.
Proof.
  intros Hi. rewrite transform_file_eq, choice_eq, Hi.
  rewrite pitch_in_catalog, sample_pitch_raises. reflexivity.
Qed.

(** X13, lines 190-191: a completed run has printed one coefficient per file;
    a run over two lists of files is the run over the first followed, from
    the state it leaves, by the run over the second; the first file that
    raises ends the run with its exception, whatever files follow, and this
    happens with [ValueError] as soon as the transform drawn for a file is
    ["pitch"]. *)
Theorem driver_stops_at_first_exception :
  (forall inputs st cs st',
     driver inputs st = Ok (cs, st') ->
     List.length cs = List.length inputs)
  /\ (forall l1 l2 st cs1 st1,
        driver l1 st = Ok (cs1, st1) ->
        driver (l1 ++ l2)%list st =
          match driver l2 st1 with
          | Ok (cs2, st2) => Ok ((cs1 ++ cs2)%list, st2)
          | Raise e => Raise e
          end)
  /\ (forall l1 f l2 st cs1 st1 e,
        driver l1 st = Ok (cs1, st1) ->
        transform_file f st1 = Raise e ->
        driver (l1 ++ f :: l2)%list st = Raise e)
  /\ (forall l1 f l2 st cs1 g1 fs1,
        driver l1 st = Ok (cs1, (g1, fs1)) ->
        fst (randbelow (List.length transforms) g1) = 16%nat ->
        driver (l1 ++ f :: l2)%list st = Raise ValueError).
Proof.
  assert (Habort : forall l1 f l2 st cs1 st1 e,
    driver l1 st = Ok (cs1, st1) ->
    transform_file f st1 = Raise e ->
    driver (l1 ++ f :: l2)%list st = Raise e).
  { intros l1 f l2 st cs1 st1 e H1 Hf.
    now rewrite driver_app, H1, driver_cons, Hf. }
  split.
  { induction inputs as [|f inputs IH]; intros st cs st' H.
    - simpl in H. unfold ret in H. now inversion H.
    - rewrite driver_cons in H.
      destruct (transform_file f st) as [[c st1]|]; [|discriminate].
      destruct (driver inputs st1) as [[cs0 st2]|] eqn:E; [|discriminate].
      inversion H; subst. simpl. f_equal. eapply IH; eauto. }
  split.
  { intros l1 l2 st cs1 st1 H1. now rewrite driver_app, H1. }
  split; [exact Habort|].
  intros l1 f l2 st cs1 g1 fs1 H1 Hi.
  eapply Habort; [exact H1|]. now apply transform_file_pitch.
Qed.

End Driver.

Lemma driver_stops_at_first_exception_witness :
  let st := (16%nat, @nil (string * list R)) in
  driver (G := counter_gen) (C := example_collaborators) [] st = Ok ([], st)
  /\ fst (randbelow (RandomGen := counter_gen) (List.length transforms)
            16%nat) = 16%nat
  /\ List.length (@nil coefficient) = List.length (@nil string)
  /\ driver (G := counter_gen) (C := example_collaborators)
       ([] ++ "1.wav" :: ["2.wav"; "3.wav"])%list st = Raise ValueError.
Proof.
  intros st.
  assert (H1 : driver (G := counter_gen) (C := example_collaborators) [] st
               = Ok ([], st)) by reflexivity.
  assert (H2 : fst (randbelow (RandomGen := counter_gen)
                      (List.length transforms) 16%nat) = 16%nat)
    by reflexivity.
  split; [exact H1|]. split; [exact H2|].
  split; [exact (proj1 (driver_stops_at_first_exception (G := counter_gen)
                          (C := example_collaborators)) [] st [] st H1)|].
  exact (proj2 (proj2 (proj2 (driver_stops_at_first_exception
                                (G := counter_gen)
                                (C := example_collaborators))))
           [] "1.wav" ["2.wav"; "3.wav"] st [] 16%nat [] H1 H2).
Defined.

(** ** The number of draws *)

Section Draws.
Context {G : RandomGen}.
Variable ticks : rng -> nat.
Hypothesis ticks_random : forall g, ticks (snd (random g)) = S (ticks g).
Hypothesis ticks_randbelow :
  forall n g, ticks (snd (randbelow n g)) = S (ticks g).







End Draws.


(** ** Where the artifacts go *)

Lemma has_slash_append a b : has_slash (a ++ b) = has_slash a || has_slash b.
Proof.
  induction a as [|c a IH]; simpl; [reflexivity|].
  now rewrite IH, orb_assoc.
Qed.

Lemma split_tail_no_slash p : has_slash p = false -> split_tail p = p.
Proof.
  destruct p as [|c p]; simpl; [reflexivity|].
  intros H. apply orb_false_iff in H. destruct H as [Hc Hp].
  now rewrite Hp, Hc.
Qed.

Lemma has_slash_split_tail p : has_slash (split_tail p) = false.
Proof.
  induction p as [|c p IH]; simpl; [reflexivity|].
  destruct (has_slash p) eqn:Hp; [exact IH|].
  destruct (Ascii.eqb c "/") eqn:Hc; [exact Hp|].
  simpl. now rewrite Hc, Hp.
Qed.

Lemma split_tail_after_slash a b :
  split_tail (a ++ String "/" b) = split_tail b.
Proof.
  induction a as [|c a IH]; simpl.
  - destruct (has_slash b) eqn:Hb; [reflexivity|].
    symmetry. now apply split_tail_no_slash.
  - rewrite has_slash_append. simpl. rewrite orb_true_r. exact IH.
Qed.

Lemma digit_char_no_slash d :
  (d < 10)%Z -> Ascii.eqb (digit_char d) "/" = false.
Proof.
  intros Hd. apply Ascii.eqb_neq. intros H.
  apply (f_equal N_of_ascii) in H. unfold digit_char in H.
  rewrite N_ascii_embedding in H by lia.
  change (N_of_ascii "/") with 47%N in H. lia.
Qed.

Lemma has_slash_zeros k : has_slash (zeros k) = false.
Proof. induction k; simpl; auto. Qed.

Lemma has_slash_fixed_digits w : forall n, has_slash (fixed_digits w n) = false.
Proof.
  induction w as [|w IH]; intros n; simpl; [reflexivity|].
  rewrite has_slash_append, IH. simpl.
  rewrite digit_char_no_slash; [reflexivity|].
  apply Z.mod_pos_bound. lia.
Qed.

Lemma has_slash_digits_fuel fuel : forall n,
  has_slash (digits_fuel fuel n) = false.
Proof.
  induction fuel as [|fuel IH]; intros n; simpl; [reflexivity|].
  destruct (Z.ltb_spec n 10).
  - simpl. now rewrite digit_char_no_slash.
  - rewrite has_slash_append, IH. simpl.
    rewrite digit_char_no_slash; [reflexivity|].
    apply Z.mod_pos_bound. lia.
Qed.

Lemma has_slash_format v : has_slash (format_010_3F v) = false.
Proof.
  rewrite format_unfold, !has_slash_append.
  unfold decimal.
  rewrite has_slash_zeros, has_slash_digits_fuel, has_slash_fixed_digits.
  now destruct (Rlt_dec v 0).
Qed.

Lemma catalog_names_no_slash :
  Forall (fun spec => has_slash (name spec) = false
                      /\ forallb (fun k => negb (has_slash k))
                           (map label (continuous_names spec)) = true)
    transforms.
Proof.
  unfold transforms.
  repeat (constructor; [split; reflexivity|]). constructor.
Qed.

(** X10, lines 163-168: when neither the transform nor the label holds a slash,
    as in the whole catalog, the artifact is a file directly below
    [data/transforms] whose name is built from the base name of the source;
    the directory of the source plays no part, so that sources of one name
    in two directories share their artifacts. *)
Theorem outfile_directly_below_transforms :
  (forall t f l v,
     has_slash t = false -> has_slash l = false ->
     let base := t ++ "-" ++ split_tail f ++ "-" ++ l ++ "-"
                   ++ format_010_3F v ++ ".ogg" in
     outfile t f l v = "data/transforms/" ++ base
     /\ has_slash base = false
     /\ split_tail (outfile t f l v) = base)
  /\ (forall t l v dir1 dir2 file,
        has_slash file = false ->
        outfile t (dir1 ++ "/" ++ file) l v
        = outfile t (dir2 ++ "/" ++ file) l v)
  /\ (forall spec n,
        In spec transforms -> In n (continuous_names spec) ->
        has_slash (name spec) = false /\ has_slash (label n) = false).
Proof.
  split.
  { intros t f l v Ht Hl base.
    assert (Hrel : forall t', t <> String "/" t').
    { intros t' ->. simpl in Ht. discriminate. }
    assert (Hbase : has_slash base = false).
    { unfold base. rewrite !has_slash_append, Ht, Hl, has_slash_split_tail,
        has_slash_format. reflexivity. }
    split; [now apply outfile_pattern|]. split; [exact Hbase|].
    rewrite outfile_pattern by exact Hrel. fold base.
    change ("data/transforms/" ++ base)
      with ("data" ++ String "/" ("transforms" ++ String "/" base)).
    rewrite !split_tail_after_slash. now apply split_tail_no_slash. }
  split.
  { intros t l v dir1 dir2 file Hf. unfold outfile.
    change (dir1 ++ "/" ++ file) with (dir1 ++ String "/" file).
    change (dir2 ++ "/" ++ file) with (dir2 ++ String "/" file).
    now rewrite !split_tail_after_slash. }
  intros spec n Hin Hn. pose proof catalog_names_no_slash as H.
  rewrite Forall_forall in H. destruct (H spec Hin) as [Ht Hl].
  split; [exact Ht|].
  rewrite forallb_forall in Hl. apply negb_true_iff, Hl. now apply in_map.
Qed.

Lemma outfile_directly_below_transforms_witness :
  has_slash "speed" = false /\ has_slash "factor" = false
  /\ has_slash "1.wav" = false
  /\ split_tail (outfile "speed" "data/FSD50K.eval_audio/1.wav" "factor" 0.5)
     = "speed-1.wav-factor-000000.500.ogg"
  /\ outfile "speed" ("data/FSD50K.eval_audio" ++ "/" ++ "1.wav") "factor" 0.5
     = outfile "speed" ("elsewhere" ++ "/" ++ "1.wav") "factor" 0.5.
Proof.
  assert (H1 : has_slash "speed" = false) by reflexivity.
  assert (H2 : has_slash "factor" = false) by reflexivity.
  assert (H3 : has_slash "1.wav" = false) by reflexivity.
  split; [exact H1|]. split; [exact H2|]. split; [exact H3|]. split.
  - destruct (proj1 outfile_directly_below_transforms "speed"
                "data/FSD50K.eval_audio/1.wav" "factor" 0.5 H1 H2)
      as (_ & _ & ->).
    rewrite format_half. reflexivity.
  - exact (proj1 (proj2 outfile_directly_below_transforms) "speed" "factor"
             0.5 "data/FSD50K.eval_audio" "elsewhere" "1.wav" H3).
Defined.

(** ** What the formatted value keeps *)

Lemma format_min_width v : (10 <= String.length (format_010_3F v))%nat.
Proof. rewrite format_unfold, !append_length, zeros_length. lia. Qed.

Lemma unformat_format v :
  unformat (format_010_3F v) =
    (if Rlt_dec v 0 then -1 else 1)
    * IZR (round_half_even (Rabs v * 1000)) / 1000.
Proof.
  unfold unformat. rewrite thousandths_format, is_negative_format.
  now destruct (Rlt_dec v 0).
Qed.

(** X11, line 166: the formatted value is never shorter than ten characters; read
    back, it is the value up to half a thousandth, and the value itself when
    this is a whole number of thousandths. *)
Theorem format_keeps_three_decimals :
  (forall v, (10 <= String.length (format_010_3F v))%nat)
  /\ (forall v, Rabs (v - unformat (format_010_3F v)) <= 1 / 2000)
  /\ (forall k, unformat (format_010_3F (IZR k / 1000)) = IZR k / 1000).
Proof.
  split; [exact format_min_width|]. split.
  - intros v. rewrite unformat_format.
    pose proof (round_half_even_error (Rabs v * 1000)) as H.
    unfold Rabs in *.
    destruct (Rlt_dec v 0), (Rcase_abs v),
      (Rcase_abs (- v * 1000 - IZR (round_half_even (- v * 1000)))),
      (Rcase_abs (v * 1000 - IZR (round_half_even (v * 1000))));
      try lra;
      match goal with |- (if Rcase_abs ?x then _ else _) <= _ =>
        destruct (Rcase_abs x) end; lra.
  - intros k. rewrite unformat_format.
    replace (Rabs (IZR k / 1000) * 1000) with (IZR (Z.abs k)).
    + rewrite round_half_even_IZR.
      destruct (Rlt_dec (IZR k / 1000) 0) as [Hneg|Hpos].
      * assert (IZR k < 0) by lra. apply lt_IZR in H.
        rewrite Z.abs_neq, opp_IZR by lia. lra.
      * assert (0 <= IZR k) by lra. apply le_IZR in H.
        rewrite Z.abs_eq by lia. lra.
    + rewrite abs_IZR. unfold Rdiv. rewrite Rabs_mult.
      rewrite (Rabs_pos_eq (/ 1000)) by lra. lra.
Qed.

(** ** The listing of a sweep *)







(** ** The files a processed file leaves *)


